(** * socfs: SoC registers as a FUSE filesystem

    A shallow embedding of [socfs.c].  The descriptor file is kept as the
    byte image that [main] maps into memory, and every lookup walks that
    image with the offsets of the packed structs, as the C code does.
    Physical memory behind [/dev/mem] is a byte store reached through the
    live mappings of the process.

    Conventions:
    - integers are [Z] with the wrap-around of their C type written out;
      the target is LP64 and little-endian;
    - a pointer into the descriptor image is the byte offset from
      [private->header];
    - an access the C abstract machine leaves undefined (outside the
      descriptor image, outside every live mapping, past the end of a
      caller buffer) is the outcome [Fault];
    - the [fuse_log] and [fprintf] calls are left out, and the directory
      filler of the host is taken to accept every entry;
    - [parse_input] comes from [misc.h]: [soc_write] takes it as a
      parameter, and [Misc.parse_input] models it. *)

From Stdlib Require Import ZArith List String Ascii Bool Lia HexString.
Import ListNotations.
Local Open Scope Z_scope.

(** ** Outcomes of memory-touching computations *)

Inductive result (A : Type) : Type :=
| Done (a : A)
| Fault.
Arguments Done {A} a.
Arguments Fault {A}.

Definition rbind {A B} (r : result A) (k : A -> result B) : result B :=
  match r with
  | Done a => k a
  | Fault => Fault
  end.

Declare Scope result_scope.
Delimit Scope result_scope with result.
Notation "'let?' x := r 'in' k" := (rbind r (fun x => k))
  (at level 10, x pattern, r at level 100, k at level 200) : result_scope.
Local Open Scope result_scope.

(** ** Machine integers *)

Definition wrap32 (z : Z) : Z := z mod 2 ^ 32.
Definition wrap64 (z : Z) : Z := z mod 2 ^ 64.

(** Conversion of a [uint64_t] to the signed 64-bit [off_t]. *)
Definition to_off_t (z : Z) : Z :=
  let u := wrap64 z in
  if u <? 2 ^ 63 then u else u - 2 ^ 64.

(** Conversion to [int], the return type of the FUSE callbacks. *)
Definition to_int (z : Z) : Z :=
  let u := wrap32 z in
  if u <? 2 ^ 31 then u else u - 2 ^ 32.

Definition ENOENT : Z := 2.
Definition EFAULT : Z := 14.
Definition EINVAL : Z := 22.

(** ** C strings *)

Module Libc.

Definition NUL : ascii := "000"%char.

Definition code (c : ascii) : Z := Z.of_N (N_of_ascii c).

(** The descriptor image: the bytes of the file mapped by [main]. *)
Definition image := list ascii.

Definition byte_at (h : image) (p : Z) : result ascii :=
  if p <? 0 then Fault
  else match nth_error h (Z.to_nat p) with
       | Some c => Done c
       | None => Fault
       end.

Fixpoint read_le (h : image) (p : Z) (n : nat) : result Z :=
  match n with
  | O => Done 0
  | S n' =>
      let? c := byte_at h p in
      let? rest := read_le h (p + 1) n' in
      Done (code c + 256 * rest)
  end.

Definition read_u32 (h : image) (p : Z) : result Z := read_le h p 4.
Definition read_u64 (h : image) (p : Z) : result Z := read_le h p 8.

(** [s + n] for a pointer [s] into a NUL-terminated string: stepping over
    the terminator leaves the string. *)
Fixpoint advance (n : nat) (s : string) : result string :=
  match n with
  | O => Done s
  | S n' =>
      match s with
      | EmptyString => Fault
      | String c s' => if Ascii.eqb c NUL then Fault else advance n' s'
      end
  end.

(** [strchr(s, c)] (also known as [index]): offset of the first [c] in
    [s], [None] for the null pointer. *)
Fixpoint strchr (s : string) (c : ascii) : option Z :=
  match s with
  | EmptyString => if Ascii.eqb c NUL then Some 0 else None
  | String a s' =>
      if Ascii.eqb a c then Some 0
      else if Ascii.eqb a NUL then None
      else option_map Z.succ (strchr s' c)
  end.

Definition index := strchr.

(** [strlen(s)]. *)
Fixpoint strlen (s : string) : Z :=
  match s with
  | EmptyString => 0
  | String a s' => if Ascii.eqb a NUL then 0 else 1 + strlen s'
  end.

(** [strcmp(s1, s2)] of two strings held outside the image. *)
Fixpoint strcmp_str (s1 s2 : string) : Z :=
  match s1, s2 with
  | EmptyString, EmptyString => 0
  | EmptyString, String c2 _ => 0 - code c2
  | String c1 _, EmptyString => code c1
  | String c1 s1', String c2 s2' =>
      if Ascii.eqb c1 c2
      then if Ascii.eqb c1 NUL then 0 else strcmp_str s1' s2'
      else code c1 - code c2
  end.

(** [strcmp(s, h + p)]: [s] is a string outside the image, the second
    operand is read from the image until a difference or a NUL. *)
Fixpoint strcmp (s : string) (h : image) (p : Z) : result Z :=
  let? c2 := byte_at h p in
  match s with
  | EmptyString => Done (0 - code c2)
  | String c1 s' =>
      if Ascii.eqb c1 c2
      then if Ascii.eqb c1 NUL then Done 0 else strcmp s' h (p + 1)
      else Done (code c1 - code c2)
  end.

(** [strncmp(s, h + p, n)]: at most [n] characters are compared. *)
Fixpoint strncmp (s : string) (h : image) (p : Z) (n : Z) : result Z :=
  if n <=? 0 then Done 0
  else
    let? c2 := byte_at h p in
    match s with
    | EmptyString => Done (0 - code c2)
    | String c1 s' =>
        if Ascii.eqb c1 c2
        then if Ascii.eqb c1 NUL then Done 0
             else strncmp s' h (p + 1) (n - 1)
        else Done (code c1 - code c2)
    end.

(** The NUL-terminated string that starts at [h + p], as a callee such as
    the directory filler reads it. *)
Fixpoint cstring_of (l : list ascii) : result string :=
  match l with
  | [] => Fault
  | c :: l' =>
      if Ascii.eqb c NUL then Done EmptyString
      else let? s := cstring_of l' in Done (String c s)
  end.

Definition cstring (h : image) (p : Z) : result string :=
  if p <? 0 then Fault else cstring_of (skipn (Z.to_nat p) h).

End Libc.
Import Libc.

(** ** Layout of the packed descriptor structs *)

Definition MAX_SOC_NAME : Z := 32.
Definition MAX_REG_NAME : Z := 64.
Definition MAX_TOP_NAME : Z := 32.

Definition SOC_MAGIC : Z := 0x57a32bcd.

Module Layout.

(** [struct reg]: name, addr, width. *)
Definition reg_name : Z := 0.
Definition reg_addr : Z := MAX_REG_NAME.
Definition reg_width : Z := MAX_REG_NAME + 8.
Definition sizeof_reg : Z := MAX_REG_NAME + 8 + 4.

(** [struct top]: name, reg_count, next_offset, regs[]. *)
Definition top_name : Z := 0.
Definition top_reg_count : Z := MAX_TOP_NAME.
Definition top_next_offset : Z := MAX_TOP_NAME + 4.
Definition top_regs : Z := MAX_TOP_NAME + 8.

(** [struct soc_header]: magic, version, soc_name, top_count, tops[]. *)
Definition hdr_magic : Z := 0.
Definition hdr_version : Z := 4.
Definition hdr_soc_name : Z := 8.
Definition hdr_top_count : Z := 8 + MAX_SOC_NAME.
Definition hdr_tops : Z := 8 + MAX_SOC_NAME + 4.

End Layout.

Record soc_private : Type := {
  header : image;
  mem_fd : Z
}.

(** ** Path resolution *)

(** [find_top]: [None] is the null pointer, [Some top] the offset of the
    matching [struct top]. *)
Fixpoint find_top_loop (h : image) (name : string) (len : Z)
    (count : nat) (top : Z) : result (option Z) :=
  match count with
  | O => Done None
  | S count' =>
      let? r := strncmp name h (top + Layout.top_name) len in
      if r =? 0 then Done (Some top)
      else
        let? next := read_u32 h (top + Layout.top_next_offset) in
        find_top_loop h name len count' next
  end.

Definition find_top (private : soc_private) (name : string) (len : Z)
  : result (option Z) :=
  let h := header private in
  let? top_count := read_u32 h Layout.hdr_top_count in
  find_top_loop h name len (Z.to_nat top_count) Layout.hdr_tops.

(** The register loop of [find_reg]: [&top->regs[i]] for the first [i]
    whose name compares equal to [rname]. *)
Fixpoint find_reg_loop (h : image) (rname : string) (top : Z)
    (count : nat) (i : Z) : result (option Z) :=
  match count with
  | O => Done None
  | S count' =>
      let r := top + Layout.top_regs + i * Layout.sizeof_reg in
      let? c := strcmp rname h (r + Layout.reg_name) in
      if c =? 0 then Done (Some r)
      else find_reg_loop h rname top count' (i + 1)
  end.

(** [find_reg].  Offsets are taken from [name + 1]: [k] is where [index]
    finds the first '/', so [idx] is [k - 1], [len] is [idx - 0] turned
    into a [size_t], and [idx + 2] is the text after that '/'.  When
    [index] returns the null pointer the arithmetic on it is undefined. *)
Definition find_reg (private : soc_private) (name : string)
  : result (option Z) :=
  let h := header private in
  let? name1 := advance 1 name in
  match index name1 "/"%char with
  | None => Fault
  | Some k =>
      let idx := k - 1 in
      let len := wrap64 (idx - 0) in
      let? top := find_top private name1 len in
      match top with
      | None => Done None
      | Some top =>
          let? rname := advance (Z.to_nat (idx + 2)) name1 in
          let? reg_count := read_u32 h (top + Layout.top_reg_count) in
          find_reg_loop h rname top (Z.to_nat reg_count) 0
      end
  end.

(** ** The process state seen by the callbacks *)

(** A live mapping of [mem_fd]: [m_len] bytes at virtual address [m_base]
    show the device from byte [m_off] on. *)
Record mapping : Type := {
  m_base : Z;
  m_len : Z;
  m_off : Z
}.

Record machine : Type := {
  private_data : soc_private;      (* fuse_get_context()->private_data *)
  getpagesize : Z;
  devmem : Z -> Z;                 (* physical memory, one byte per address *)
  mappings : list mapping;
  mmap_calls : list (Z * Z);       (* (length, offset) of every mmap so far *)
  os_mmap : nat -> Z -> Z -> Z     (* address the n-th mmap returns *)
}.

Definition MAP_FAILED : Z := -1.

Definition M (A : Type) : Type := machine -> result (A * machine).

Definition ret {A} (a : A) : M A := fun m => Done (a, m).

Definition bind {A B} (c : M A) (k : A -> M B) : M B :=
  fun m =>
    match c m with
    | Done (a, m') => k a m'
    | Fault => Fault
    end.

Definition lift {A} (r : result A) : M A :=
  fun m =>
    match r with
    | Done a => Done (a, m)
    | Fault => Fault
    end.

Definition get_private : M soc_private := fun m => Done (private_data m, m).

Declare Scope machine_scope.
Delimit Scope machine_scope with machine.
Notation "x <- c ;; k" := (bind c (fun x => k))
  (at level 61, c at next level, right associativity) : machine_scope.
Notation "' pat <- c ;; k" :=
  (bind c (fun x => match x with pat => k end))
  (at level 61, pat pattern, c at next level, right associativity)
  : machine_scope.
Notation "c ;; k" := (bind c (fun _ => k))
  (at level 61, right associativity) : machine_scope.

Definition set_mappings (m : machine) (l : list mapping) : machine :=
  {| private_data := private_data m; getpagesize := getpagesize m;
     devmem := devmem m; mappings := l; mmap_calls := mmap_calls m;
     os_mmap := os_mmap m |}.

Definition set_devmem (m : machine) (d : Z -> Z) : machine :=
  {| private_data := private_data m; getpagesize := getpagesize m;
     devmem := d; mappings := mappings m; mmap_calls := mmap_calls m;
     os_mmap := os_mmap m |}.

Definition log_mmap (m : machine) (length offset : Z) : machine :=
  {| private_data := private_data m; getpagesize := getpagesize m;
     devmem := devmem m; mappings := mappings m;
     mmap_calls := mmap_calls m ++ [(length, offset)];
     os_mmap := os_mmap m |}.

(** [mmap(NULL, length, PROT_READ | PROT_WRITE, MAP_SHARED, mem_fd, offset)]. *)
Definition mmap (length offset : Z) : M Z :=
  fun m =>
    let addr := os_mmap m (List.length (mmap_calls m)) length offset in
    let m1 := log_mmap m length offset in
    if addr =? MAP_FAILED then Done (addr, m1)
    else Done (addr, set_mappings m1
                 ({| m_base := addr; m_len := length; m_off := offset |}
                    :: mappings m1)).

Definition same_range (addr length : Z) (mp : mapping) : bool :=
  (m_base mp =? addr) && (m_len mp =? length).

(** [munmap(addr, length)] of a range obtained from [mmap]. *)
Definition munmap (addr length : Z) : M Z :=
  fun m =>
    Done (0, set_mappings m
               (filter (fun mp => negb (same_range addr length mp))
                       (mappings m))).

Definition covers (va : Z) (mp : mapping) : bool :=
  (m_base mp <=? va) && (va <? m_base mp + m_len mp).

(** Physical address behind a virtual one, if a live mapping covers it. *)
Definition translate (m : machine) (va : Z) : option Z :=
  match find (covers va) (mappings m) with
  | Some mp => Some (m_off mp + (va - m_base mp))
  | None => None
  end.

(** One volatile load of [n] bytes at [va]. *)
Fixpoint load (n : nat) (va : Z) (m : machine) : result Z :=
  match n with
  | O => Done 0
  | S n' =>
      match translate m va with
      | None => Fault
      | Some pa =>
          let? rest := load n' (va + 1) m in
          Done (devmem m pa mod 256 + 256 * rest)
      end
  end.

Definition poke (d : Z -> Z) (pa b : Z) : Z -> Z :=
  fun a => if a =? pa then b else d a.

(** One volatile store of the low [n] bytes of [v] at [va]. *)
Fixpoint store (n : nat) (va v : Z) (m : machine) : result machine :=
  match n with
  | O => Done m
  | S n' =>
      match translate m va with
      | None => Fault
      | Some pa =>
          store n' (va + 1) (v / 256)
                (set_devmem m (poke (devmem m) pa (v mod 256)))
      end
  end.

Definition volatile_load (bits : Z) (va : Z) : M Z :=
  fun m =>
    let? v := load (Z.to_nat (bits / 8)) va m in Done (v, m).

Definition volatile_store (bits : Z) (va v : Z) : M unit :=
  fun m =>
    let? m' := store (Z.to_nat (bits / 8)) va v m in Done (tt, m').

(** ** Register access *)

Record mem_map : Type := {
  virt_addr : Z;
  map_base : Z;
  offset_in_page : Z;
  mapped_size : Z
}.

(** An automatic [struct mem_map] before [map_mem] fills it; no field is
    read before it is written. *)
Definition auto_mem_map : mem_map :=
  {| virt_addr := 0; map_base := 0; offset_in_page := 0; mapped_size := 0 |}.

Local Open Scope machine_scope.

Definition map_mem (private : soc_private) (map : mem_map)
    (target : Z) (width : Z) : M (Z * mem_map) :=
  fun m =>
    let page_size := wrap32 (getpagesize m) in
    let mapped_size0 := page_size in
    let offset := Z.land (wrap32 target) (wrap32 (page_size - 1)) in
    let mapped_size1 :=
      if wrap64 (offset + width) >? page_size
      then wrap32 (mapped_size0 * 2)
      else mapped_size0 in
    (base <- mmap mapped_size1
                  (Z.land target (Z.lnot (wrap32 (page_size - 1)))) ;;
     if base =? MAP_FAILED
     then ret (1, {| virt_addr := virt_addr map; map_base := base;
                     offset_in_page := offset;
                     mapped_size := mapped_size1 |})
     else ret (0, {| virt_addr := base + offset; map_base := base;
                     offset_in_page := offset;
                     mapped_size := mapped_size1 |})) m.

Definition unmap_mem (map : mem_map) : M unit :=
  _ <- munmap (map_base map) (mapped_size map) ;; ret tt.

(** The widths with a [case] in the access switches. *)
Definition supported_width (width : Z) : bool :=
  (width =? 8) || (width =? 16) || (width =? 32) || (width =? 64).

(** [sprintf(buf, "0x%llx -> 0x%llx\n", addr, result)]. *)
Definition newline : string := String "010"%char EmptyString.

(** The [%llx] conversion: lowercase hexadecimal, no padding. *)
Definition llx (n : Z) : string :=
  match Z.to_N n with
  | N0 => "0"%string
  | Npos p => HexString.Raw.of_pos p EmptyString
  end.

Definition sprintf_reg (addr value : Z) : string :=
  ("0x" ++ llx addr ++ " -> 0x" ++ llx value ++ newline)%string.

(** [soc_read]: the [int] returned and the text left in [buf], if any.
    [buf] has room for [size] bytes; [sprintf] also writes the
    terminating NUL. *)
Definition soc_read (path : string) (size offset : Z)
  : M (Z * option string) :=
  private <- get_private ;;
  reg <- lift (find_reg private path) ;;
  match reg with
  | None => ret (- ENOENT, None)
  | Some reg =>
      let h := header private in
      addr <- lift (read_u64 h (reg + Layout.reg_addr)) ;;
      (* map_mem(private, &map, reg->addr, 4) *)
      '(failed, map) <- map_mem private auto_mem_map (to_off_t addr) 4 ;;
      if negb (failed =? 0) then ret (- EFAULT, None)
      else
        width <- lift (read_u32 h (reg + Layout.reg_width)) ;;
        if supported_width width
        then
          result <- volatile_load width (virt_addr map) ;;
          unmap_mem map ;;
          let text := sprintf_reg addr result in
          if Z.of_nat (String.length text) + 1 <=? size
          then ret (to_int (Z.of_nat (String.length text)), Some text)
          else lift Fault
        else ret (- EFAULT, None)
  end.

Section Write.

(** [parse_input] of [misc.h]: [None] for a non-zero return, otherwise
    the value stored through the second argument. *)
Variable parse_input : string -> option Z.

Definition soc_write (path : string) (buf : string) (size offset : Z)
  : M Z :=
  private <- get_private ;;
  reg <- lift (find_reg private path) ;;
  match reg with
  | None => ret (- ENOENT)
  | Some reg =>
      let h := header private in
      match parse_input buf with
      | None => ret (- EINVAL)
      | Some writeval =>
          addr <- lift (read_u64 h (reg + Layout.reg_addr)) ;;
          (* map_mem(private, &map, reg->addr, 4) *)
          '(failed, map) <- map_mem private auto_mem_map (to_off_t addr) 4 ;;
          if negb (failed =? 0) then ret (- EFAULT)
          else
            width <- lift (read_u32 h (reg + Layout.reg_width)) ;;
            if supported_width width
            then
              volatile_store width (virt_addr map) writeval ;;
              unmap_mem map ;;
              ret (to_int size)
            else ret (- EFAULT)
      end
  end.

End Write.

(** ** Attributes, directory listings, truncate *)

Record stat : Type := {
  st_mode : Z;
  st_nlink : Z;
  st_size : Z
}.

Definition S_IFDIR : Z := 16384.   (* 0040000 *)
Definition S_IFREG : Z := 32768.   (* 0100000 *)

Definition slash : string := String "/"%char EmptyString.

Definition soc_getattr (path : string) : M (Z * stat) :=
  let res := 0 in
  let dir := {| st_mode := Z.lor S_IFDIR 493; st_nlink := 2;
                st_size := 0 |} in
  let file := {| st_mode := Z.lor S_IFREG 438; st_nlink := 1;
                 st_size := 256 |} in
  if strcmp_str path slash =? 0 then ret (res, dir)
  else
    path1 <- lift (advance 1 path) ;;
    match strchr path1 "/"%char with
    | None => ret (res, dir)
    | Some _ => ret (res, file)
    end.

(** The directory filler of the host: one more entry in the buffer. *)
Definition filler (buf : list string) (name : string) : list string :=
  buf ++ [name].

Fixpoint readdir_tops (h : image) (count : nat) (top : Z)
    (buf : list string) : result (list string) :=
  match count with
  | O => Done buf
  | S count' =>
      let? name := cstring h (top + Layout.top_name) in
      let buf := filler buf name in
      let? next := read_u32 h (top + Layout.top_next_offset) in
      readdir_tops h count' next buf
  end.

Fixpoint readdir_regs (h : image) (top : Z) (count : nat) (i : Z)
    (buf : list string) : result (list string) :=
  match count with
  | O => Done buf
  | S count' =>
      let r := top + Layout.top_regs + i * Layout.sizeof_reg in
      let? name := cstring h (r + Layout.reg_name) in
      readdir_regs h top count' (i + 1) (filler buf name)
  end.

(** [soc_readdir]: the [int] returned and the directory buffer after the
    call. *)
Definition soc_readdir (path : string) (buf : list string) (offset : Z)
  : M (Z * list string) :=
  private <- get_private ;;
  let h := header private in
  if strcmp_str path slash =? 0 then
    let buf := filler buf "." in
    let buf := filler buf ".." in
    top_count <- lift (read_u32 h Layout.hdr_top_count) ;;
    buf <- lift (readdir_tops h (Z.to_nat top_count) Layout.hdr_tops buf) ;;
    ret (0, buf)
  else
    path1 <- lift (advance 1 path) ;;
    match strchr path1 "/"%char with
    | None =>
        top <- lift (find_top private path1 (strlen path1)) ;;
        match top with
        | None => ret (- ENOENT, buf)
        | Some top =>
            let buf := filler buf "." in
            let buf := filler buf ".." in
            reg_count <- lift (read_u32 h (top + Layout.top_reg_count)) ;;
            buf <- lift (readdir_regs h top (Z.to_nat reg_count) 0 buf) ;;
            ret (0, buf)
        end
    | Some _ => ret (- ENOENT, buf)
    end.

Definition soc_truncate (path : string) (offset : Z) : M Z := ret 0.

(** ** The operations table *)

Inductive request : Type :=
| Getattr (path : string)
| Readdir (path : string) (buf : list string) (offset : Z)
| Read (path : string) (size offset : Z)
| Write (path : string) (buf : string) (size offset : Z)
| Truncate (path : string) (offset : Z).

Inductive reply : Type :=
| RAttr (res : Z) (stbuf : stat)
| RDir (res : Z) (buf : list string)
| RRead (res : Z) (buf : option string)
| RInt (res : Z).

Definition soc_oper (parse_input : string -> option Z) (rq : request)
  : M reply :=
  match rq with
  | Getattr path =>
      '(res, st) <- soc_getattr path ;; ret (RAttr res st)
  | Readdir path buf offset =>
      '(res, buf) <- soc_readdir path buf offset ;; ret (RDir res buf)
  | Read path size offset =>
      '(res, buf) <- soc_read path size offset ;; ret (RRead res buf)
  | Write path buf size offset =>
      res <- soc_write parse_input path buf size offset ;; ret (RInt res)
  | Truncate path offset =>
      res <- soc_truncate path offset ;; ret (RInt res)
  end.

(** ** Start-up *)

Inductive startup : Type :=
| Exit (status : Z)
| Serving (private : soc_private).

(** The part of [main] between opening the descriptor and [fuse_main]:
    [file] holds the bytes that [mmap] makes visible at
    [private->header]. *)
Definition main (file : image) (devmem_fd : Z) : result startup :=
  let private := {| header := file; mem_fd := devmem_fd |} in
  let h := header private in
  let? magic := read_u32 h Layout.hdr_magic in
  if negb (magic =? SOC_MAGIC) then Done (Exit 1)
  else
    let? version := read_u32 h Layout.hdr_version in
    if negb (version =? 1) then Done (Exit 1)
    else Done (Serving private).

(** ** Write payloads *)

Module Misc.

Definition dec_digit (c : ascii) : option Z :=
  let n := code c in
  if (48 <=? n) && (n <=? 57) then Some (n - 48) else None.

Definition hex_digit (c : ascii) : option Z :=
  let n := code c in
  if (48 <=? n) && (n <=? 57) then Some (n - 48)
  else if (97 <=? n) && (n <=? 102) then Some (n - 87)
  else if (65 <=? n) && (n <=? 70) then Some (n - 55)
  else None.

(** Value of the longest run of digits at the start of [s]. *)
Fixpoint scan (digit : ascii -> option Z) (base : Z) (s : string)
    (acc : Z) : Z :=
  match s with
  | EmptyString => acc
  | String c s' =>
      match digit c with
      | Some d => scan digit base s' (base * acc + d)
      | None => acc
      end
  end.

Definition starts_with (digit : ascii -> option Z) (s : string) : bool :=
  match s with
  | EmptyString => false
  | String c _ => match digit c with Some _ => true | None => false end
  end.

Definition as_u64 (v : Z) : option Z :=
  if v <? 2 ^ 64 then Some v else None.

(** The text after a leading 0x, if the text has one. *)
Definition hex_prefixed (text : string) : option string :=
  match text with
  | String c0 (String c1 rest) =>
      if Ascii.eqb c0 "0"%char && Ascii.eqb c1 "x"%char
      then Some rest
      else None
  | _ => None
  end.

(** Modelled from the spec: [parse_input] is declared in [misc.h], which
    is not among the sources.  The text is read as an unsigned 64-bit
    integer, in a 0x-prefixed hexadecimal form or a plain decimal form;
    bytes after the numeric token are ignored; anything else is a parse
    error ([None]).  A text that starts with 0x is read as the
    hexadecimal form, and a token whose value does not fit 64 bits is
    taken as malformed. *)
Definition parse_input (text : string) : option Z :=
  match hex_prefixed text with
  | Some rest =>
      if starts_with hex_digit rest
      then as_u64 (scan hex_digit 16 rest 0)
      else None
  | None =>
      if starts_with dec_digit text
      then as_u64 (scan dec_digit 10 text 0)
      else None
  end.

(** A tail that cannot be taken for more of the token: empty, or starting
    with a byte that is neither a hexadecimal digit nor the x of the
    prefix. *)
Definition not_continuing (rest : string) : bool :=
  match rest with
  | EmptyString => true
  | String c _ =>
      match hex_digit c with
      | Some _ => false
      | None => negb (Ascii.eqb c "x"%char)
      end
  end.

End Misc.

(** * Notions used in the statements *)

(** ** Frames *)

(** A computation keeps the relation [R] between the machine it starts
    from and the machine it returns. *)
Definition preserves (R : machine -> machine -> Prop) {A : Type}
    (c : M A) : Prop :=
  forall m a m', c m = Done (a, m') -> R m m'.

Definition same_descriptor (m m' : machine) : Prop :=
  private_data m' = private_data m.

Definition same_devmem (m m' : machine) : Prop :=
  devmem m' = devmem m.

(** ** The descriptor as a sequence of blocks *)

(** Offsets of the first [count] block records, following
    [next_offset] from [top]. *)
Fixpoint tops_chain (h : image) (count : nat) (top : Z)
  : result (list Z) :=
  match count with
  | O => Done []
  | S count' =>
      let? next := read_u32 h (top + Layout.top_next_offset) in
      let? rest := tops_chain h count' next in
      Done (top :: rest)
  end.

Fixpoint names_at (h : image) (tops : list Z) : result (list string) :=
  match tops with
  | [] => Done []
  | top :: rest =>
      let? name := cstring h (top + Layout.top_name) in
      let? names := names_at h rest in
      Done (name :: names)
  end.

Definition block_count (h : image) : result Z :=
  read_u32 h Layout.hdr_top_count.

(** The names of the descriptor's blocks, in on-disk order. *)
Definition block_names (h : image) : result (list string) :=
  let? n := block_count h in
  let? tops := tops_chain h (Z.to_nat n) Layout.hdr_tops in
  names_at h tops.

(** No NUL inside: the string is a C string as it stands. *)
Fixpoint nul_free (s : string) : bool :=
  match s with
  | EmptyString => true
  | String c s' => negb (Ascii.eqb c NUL) && nul_free s'
  end.

(** ** Start-up outcomes *)

Definition accepts (r : result startup) : bool :=
  match r with
  | Done (Serving _) => true
  | _ => false
  end.

(** ** The arguments [map_mem] gives to [mmap] *)

(** [offset_in_page], the length mapped and the file offset, as
    [map_mem] computes them from the page size, the target address and
    its [width] argument. *)
Definition page_offset (page target : Z) : Z :=
  Z.land (wrap32 target) (wrap32 (wrap32 page - 1)).

Definition map_length (page target width : Z) : Z :=
  if wrap64 (page_offset page target + width) >? wrap32 page
  then wrap32 (wrap32 page * 2)
  else wrap32 page.

Definition page_base (page target : Z) : Z :=
  Z.land target (Z.lnot (wrap32 (wrap32 page - 1))).

(** The machine after a successful [mmap] that returned [addr]. *)
Definition mapped (m : machine) (addr length offset : Z) : machine :=
  set_mappings (log_mmap m length offset)
    ({| m_base := addr; m_len := length; m_off := offset |} :: mappings m).

(** ** Physical memory as little-endian words *)

(** The [n] bytes at physical address [pa], read as one number. *)
Fixpoint peek_le (d : Z -> Z) (pa : Z) (n : nat) : Z :=
  match n with
  | O => 0
  | S n' => d pa mod 256 + 256 * peek_le d (pa + 1) n'
  end.

(** Physical memory after the low [n] bytes of [v] went to [pa]. *)
Fixpoint poke_le (d : Z -> Z) (pa : Z) (n : nat) (v : Z) : Z -> Z :=
  match n with
  | O => d
  | S n' => poke_le (poke d pa (v mod 256)) (pa + 1) n' (v / 256)
  end.

(** Memory as the process sees it through the live mappings [ms]: the
    byte of [d] behind [va] in the first mapping that covers it. *)
Definition seen (ms : list mapping) (d : Z -> Z) (va : Z) : Z :=
  match find (covers va) ms with
  | Some mp => d (m_off mp + (va - m_base mp))
  | None => 0
  end.

(** ** Hexadecimal text *)

Definition is_lower_hex (c : ascii) : bool :=
  let n := code c in
  ((48 <=? n) && (n <=? 57)) || ((97 <=? n) && (n <=? 102)).

Fixpoint all_lower_hex (s : string) : bool :=
  match s with
  | EmptyString => true
  | String c s' => is_lower_hex c && all_lower_hex s'
  end.

(** A non-empty run of the characters 0-9 and a-f. *)
Definition lower_hex (s : string) : bool :=
  match s with
  | EmptyString => false
  | String _ _ => all_lower_hex s
  end.

(** ** Descriptor images for the examples *)

Module Fixture.

Fixpoint le_bytes (n : nat) (v : Z) : list ascii :=
  match n with
  | O => []
  | S n' => ascii_of_N (Z.to_N (v mod 256)) :: le_bytes n' (v / 256)
  end.

(** A name field of [n] bytes: the characters of [s], then NULs. *)
Fixpoint pad (n : nat) (s : string) : list ascii :=
  match n with
  | O => []
  | S n' =>
      match s with
      | EmptyString => NUL :: pad n' EmptyString
      | String c s' => c :: pad n' s'
      end
  end.

Definition enc_reg (r : string * Z * Z) : list ascii :=
  let '(name, addr, width) := r in
  pad 64 name ++ le_bytes 8 addr ++ le_bytes 4 width.

Definition enc_top (name : string) (regs : list (string * Z * Z))
    (next_offset : Z) : list ascii :=
  pad 32 name ++ le_bytes 4 (Z.of_nat (List.length regs))
      ++ le_bytes 4 next_offset ++ flat_map enc_reg regs.

Fixpoint enc_tops (start : Z)
    (tops : list (string * list (string * Z * Z))) : list ascii :=
  match tops with
  | [] => []
  | (name, regs) :: rest =>
      let next := start + 40 + 76 * Z.of_nat (List.length regs) in
      enc_top name regs next ++ enc_tops next rest
  end.

Definition enc_soc (magic version : Z) (soc_name : string)
    (tops : list (string * list (string * Z * Z))) : image :=
  le_bytes 4 magic ++ le_bytes 4 version ++ pad 32 soc_name
      ++ le_bytes 4 (Z.of_nat (List.length tops)) ++ enc_tops 44 tops.

(** The chip of the scenario: block uart0 with the 32-bit register CTRL
    at 0x10000000. *)
Definition demo : image :=
  enc_soc SOC_MAGIC 1 "demo"
    [("uart0"%string, [("CTRL"%string, 0x10000000, 32)])].

(** A register whose width has no [case]: 12 bits. *)
Definition odd : image :=
  enc_soc SOC_MAGIC 1 "demo"
    [("blk"%string, [("ODD"%string, 0x20000000, 12)])].

(** One block, named with a single dot. *)
Definition dotted : image :=
  enc_soc SOC_MAGIC 1 "demo" [("."%string, [])].

(** A block whose 32-byte name field holds no NUL. *)
Definition unterminated : image :=
  enc_soc SOC_MAGIC 1 "demo"
    [("ABCDEFGHIJKLMNOPQRSTUVWXYZ012345"%string,
      [("CTRL"%string, 0x10000000, 32)])].

(** Registers next to the end of a 4096-byte page: 64 bits wide at
    offset 0xffa, 8 bits wide at offset 0xffd. *)
Definition straddle : image :=
  enc_soc SOC_MAGIC 1 "demo"
    [("blk"%string, [("WIDE"%string, 0x10000ffa, 64);
                     ("BYTE"%string, 0x10000ffd, 8)])].

(** Two blocks, the name of the second a proper prefix of the first. *)
Definition twins : image :=
  enc_soc SOC_MAGIC 1 "demo"
    [("uart10"%string, [("STAT"%string, 0x10010000, 32)]);
     ("uart1"%string, [("CTRL"%string, 0x10001000, 32)])].

Definition boot (h : image) (page : Z) : machine :=
  {| private_data := {| header := h; mem_fd := 3 |};
     getpagesize := page;
     devmem := fun _ => 0;
     mappings := [];
     mmap_calls := [];
     os_mmap := fun _ _ _ => 0x7f0000000000 |}.

(** [boot] with the [n] bytes of physical memory at [pa] holding [v]. *)
Definition holding (h : image) (page pa : Z) (n : nat) (v : Z) : machine :=
  set_devmem (boot h page) (poke_le (fun _ => 0) pa n v).

End Fixture.

(** * Further notions *)

(** ** Attributes *)

(** The two answers of [soc_getattr]. *)
Definition dir_attr : stat :=
  {| st_mode := Z.lor S_IFDIR 493; st_nlink := 2; st_size := 0 |}.

Definition file_attr : stat :=
  {| st_mode := Z.lor S_IFREG 438; st_nlink := 1; st_size := 256 |}.

(** ** The registers of a block *)

(** Names of the registers [i], [i + 1], ... of the block at [top],
    [count] of them, read in place. *)
Fixpoint reg_names (h : image) (top : Z) (count : nat) (i : Z)
  : result (list string) :=
  match count with
  | O => Done []
  | S count' =>
      let? name :=
        cstring h (top + Layout.top_regs + i * Layout.sizeof_reg
                     + Layout.reg_name) in
      let? names := reg_names h top count' (i + 1) in
      Done (name :: names)
  end.

(** The first block, in on-disk order, whose name starts with [name]. *)
Fixpoint first_prefixed (name : string) (tops : list Z)
    (names : list string) : option Z :=
  match tops, names with
  | top :: tops', n :: names' =>
      if String.prefix name n then Some top
      else first_prefixed name tops' names'
  | _, _ => None
  end.

(** The first register, counting from index [i], whose name is
    [rname]: its index. *)
Fixpoint first_named (rname : string) (names : list string) (i : Z)
  : option Z :=
  match names with
  | [] => None
  | n :: names' =>
      if String.eqb rname n then Some i
      else first_named rname names' (i + 1)
  end.

(** [&top->regs[i]]. *)
Definition reg_at (top i : Z) : Z :=
  top + Layout.top_regs + i * Layout.sizeof_reg.

(** [c] occurs in [s]. *)
Fixpoint has_char (c : ascii) (s : string) : bool :=
  match s with
  | EmptyString => false
  | String a s' => Ascii.eqb a c || has_char c s'
  end.

(** ** Live mappings after a call *)

(** Either the call left no mapping of its own, or the register has a
    width without a [case] and exactly one new mapping stays. *)
Definition mapping_account (path : string) (m m' : machine) : Prop :=
  incl (mappings m') (mappings m) \/
  exists reg width mp,
    find_reg (private_data m) path = Done (Some reg) /\
    read_u32 (header (private_data m)) (reg + Layout.reg_width)
      = Done width /\
    supported_width width = false /\
    mappings m' = mp :: mappings m.

(** ** More machines for the examples *)

Module Scene.

(** A machine whose [mmap] calls all fail. *)
Definition no_devmem (h : image) (page : Z) : machine :=
  {| private_data := {| header := h; mem_fd := 3 |};
     getpagesize := page;
     devmem := fun _ => 0;
     mappings := [];
     mmap_calls := [];
     os_mmap := fun _ _ _ => MAP_FAILED |}.

(** Block uart0 with CTRL and STAT, block spi with DATA. *)
Definition board : image :=
  Fixture.enc_soc SOC_MAGIC 1 "demo"
    [("uart0"%string, [("CTRL"%string, 0x10000000, 32);
                       ("STAT"%string, 0x10000004, 16)]);
     ("spi"%string, [("DATA"%string, 0x10002000, 8)])].

End Scene.


(** * Properties *)

(** ** Taking apart a computation that returned *)

Lemma Done_inj {A} (a b : A) : Done a = Done b -> a = b.
Proof. intros H. inversion H. reflexivity. Qed.

Ltac done_inv H :=
  repeat match type of H with
    | rbind ?r ?k = Done ?v =>
        let E := fresh "E" in
        let x := fresh "x" in
        destruct r as [x|] eqn:E;
        [ change (k x = Done v) in H; cbv beta in H
        | unfold rbind in H; discriminate H ]
    | Done _ = Done _ => apply Done_inj in H; subst
    end.

(** ** What a callback leaves untouched *)

Section Frame.

Variable R : machine -> machine -> Prop.
Hypothesis R_refl : forall m, R m m.
Hypothesis R_trans : forall a b c, R a b -> R b c -> R a c.
Hypothesis R_mappings : forall m l, R m (set_mappings m l).
Hypothesis R_log : forall m length offset, R m (log_mmap m length offset).

Lemma preserves_ret {A} (a : A) : preserves R (ret a).
Proof. intros m a' m' H. inversion H. apply R_refl. Qed.

Lemma preserves_lift {A} (r : result A) : preserves R (lift r).
Proof.
  intros m a m' H. unfold lift in H. destruct r; inversion H. apply R_refl.
Qed.

Lemma preserves_bind {A B} (c : M A) (k : A -> M B) :
  preserves R c -> (forall a, preserves R (k a)) -> preserves R (bind c k).
Proof.
  intros Hc Hk m b m' H. unfold bind in H.
  destruct (c m) as [[a m1]|] eqn:E; [|discriminate].
  eapply R_trans; [eapply Hc; eassumption | eapply Hk; eassumption].
Qed.

Lemma preserves_get_private : preserves R get_private.
Proof. intros m a m' H. inversion H. apply R_refl. Qed.

Lemma preserves_mmap length offset : preserves R (mmap length offset).
Proof.
  intros m a m' H. unfold mmap in H.
  destruct (_ =? MAP_FAILED); inversion H; subst.
  - apply R_log.
  - eapply R_trans; [apply R_log | apply R_mappings].
Qed.

Lemma preserves_munmap addr length : preserves R (munmap addr length).
Proof. intros m a m' H. inversion H. apply R_mappings. Qed.

Lemma preserves_volatile_load bits va : preserves R (volatile_load bits va).
Proof.
  intros m a m' H. unfold volatile_load in H.
  destruct (load _ _ _); inversion H. apply R_refl.
Qed.

Ltac frame :=
  repeat first
    [ apply preserves_ret
    | apply preserves_lift
    | apply preserves_get_private
    | apply preserves_mmap
    | apply preserves_munmap
    | apply preserves_volatile_load
    | apply preserves_bind; [ | intros ]
    | match goal with
      | |- preserves R (match ?x with _ => _ end) => destruct x
      end ].

Lemma preserves_map_mem private map target width :
  preserves R (map_mem private map target width).
Proof.
  intros m. unfold map_mem. cbv zeta.
  match goal with
  | |- forall a m', ?c m = _ -> _ => assert (Hc : preserves R c) by frame
  end.
  intros a m'. apply Hc.
Qed.

Lemma preserves_unmap_mem map : preserves R (unmap_mem map).
Proof. unfold unmap_mem. frame. Qed.

Lemma preserves_soc_getattr path : preserves R (soc_getattr path).
Proof. unfold soc_getattr. cbv zeta. frame. Qed.

Lemma preserves_soc_readdir path buf offset :
  preserves R (soc_readdir path buf offset).
Proof. unfold soc_readdir. frame. Qed.

Lemma preserves_soc_truncate path offset :
  preserves R (soc_truncate path offset).
Proof. unfold soc_truncate. frame. Qed.

Lemma preserves_soc_read path size offset :
  preserves R (soc_read path size offset).
Proof.
  unfold soc_read. frame; try apply preserves_map_mem;
    try apply preserves_unmap_mem; frame.
Qed.

Section Store.

Hypothesis R_devmem : forall m d, R m (set_devmem m d).

Lemma preserves_store n : forall va v m m',
  store n va v m = Done m' -> R m m'.
Proof.
  induction n as [|n IH]; intros va v m m' H; simpl in H.
  - inversion H. apply R_refl.
  - destruct (translate m va) as [pa|]; [|discriminate].
    eapply R_trans; [apply R_devmem | eapply IH; eassumption].
Qed.

Lemma preserves_volatile_store bits va v :
  preserves R (volatile_store bits va v).
Proof.
  intros m a m' H. unfold volatile_store, rbind in H.
  destruct (store _ _ _ _) as [m1|] eqn:E; inversion H; subst.
  eapply preserves_store; eassumption.
Qed.

Lemma preserves_soc_write parse_input path buf size offset :
  preserves R (soc_write parse_input path buf size offset).
Proof.
  unfold soc_write. frame; try apply preserves_map_mem;
    try apply preserves_unmap_mem; try apply preserves_volatile_store;
    frame.
Qed.

End Store.

End Frame.

Ltac side_frame :=
  unfold same_descriptor, same_devmem; intros; simpl in *; congruence.

Lemma soc_oper_same_descriptor parse_input rq :
  preserves same_descriptor (soc_oper parse_input rq).
Proof.
  destruct rq; simpl; (eapply preserves_bind; [side_frame | |]);
    try (intros [? ?]; apply preserves_ret; side_frame);
    try (intros ?; apply preserves_ret; side_frame).
  - apply preserves_soc_getattr; side_frame.
  - apply preserves_soc_readdir; side_frame.
  - apply preserves_soc_read; side_frame.
  - apply preserves_soc_write; side_frame.
Qed.

Lemma soc_oper_same_devmem parse_input rq :
  match rq with
  | Write _ _ _ _ => True
  | _ => preserves same_devmem (soc_oper parse_input rq)
  end.
Proof.
  destruct rq; trivial; simpl;
    (eapply preserves_bind; [side_frame | |]);
    try (intros [? ?]; apply preserves_ret; side_frame);
    try (intros ?; apply preserves_ret; side_frame).
  - apply preserves_soc_getattr; side_frame.
  - apply preserves_soc_readdir; side_frame.
  - apply preserves_soc_read; side_frame.
Qed.

(** C10: whatever the operation and its input, a call that returns
    leaves the descriptor and the device handle as they were; only
    [write] changes physical memory. *)
Theorem descriptor_is_read_only :
  forall parse_input rq m r m',
    soc_oper parse_input rq m = Done (r, m') ->
    private_data m' = private_data m /\
    match rq with
    | Write _ _ _ _ => True
    | _ => devmem m' = devmem m
    end.
Proof.
  intros parse_input rq m r m' H. split.
  - exact (soc_oper_same_descriptor parse_input rq m r m' H).
  - pose proof (soc_oper_same_devmem parse_input rq) as Hd.
    destruct rq; trivial; exact (Hd m r m' H).
Qed.

Lemma descriptor_is_read_only_witness :
  exists r m',
    soc_oper Misc.parse_input
      (Write "/uart0/CTRL" "0x5" 3 0) (Fixture.boot Fixture.demo 4096)
    = Done (r, m') /\
    private_data m' = private_data (Fixture.boot Fixture.demo 4096) /\
    True.
Proof.
  eexists. eexists.
  assert (E : soc_oper Misc.parse_input
      (Write "/uart0/CTRL" "0x5" 3 0) (Fixture.boot Fixture.demo 4096)
    = Done (_, _)) by (vm_compute; reflexivity).
  split; [exact E|].
  exact (descriptor_is_read_only _ _ _ _ _ E).
Defined.

(** ** Mapping the register *)

(** [map_mem] always returns, after exactly one [mmap]. *)
Lemma map_mem_runs private map target width m :
  exists failed map' m',
    map_mem private map target width m = Done ((failed, map'), m') /\
    mmap_calls m' =
      mmap_calls m ++ [(mapped_size map', page_base (getpagesize m) target)] /\
    devmem m' = devmem m /\
    private_data m' = private_data m /\
    getpagesize m' = getpagesize m /\
    os_mmap m' = os_mmap m.
Proof.
  unfold map_mem, bind, mmap, ret, page_base. cbv zeta.
  destruct (os_mmap m _ _ _ =? MAP_FAILED) eqn:E; rewrite E;
    do 3 eexists; (split; [reflexivity|]); simpl; auto.
Qed.

(** C2 (as amended): a register whose width has no [case] makes [read]
    fail with EFAULT, and [write] fail with EFAULT when the text parses
    and with EINVAL when it does not.  The width is looked at after the
    mapping step: the failing read, and the failing write of a parsed
    text, have called [mmap] exactly once; physical memory is not
    changed. *)
Theorem unsupported_width_fails_after_mapping :
  forall parse_input m path reg addr width size offset,
    find_reg (private_data m) path = Done (Some reg) ->
    read_u64 (header (private_data m)) (reg + Layout.reg_addr) = Done addr ->
    read_u32 (header (private_data m)) (reg + Layout.reg_width)
      = Done width ->
    supported_width width = false ->
    (exists m',
        soc_read path size offset m = Done ((- EFAULT, None), m') /\
        List.length (mmap_calls m') = S (List.length (mmap_calls m)) /\
        devmem m' = devmem m) /\
    (forall buf,
        match parse_input buf with
        | None =>
            soc_write parse_input path buf size offset m
              = Done (- EINVAL, m)
        | Some _ =>
            exists m',
              soc_write parse_input path buf size offset m
                = Done (- EFAULT, m') /\
              List.length (mmap_calls m') = S (List.length (mmap_calls m)) /\
              devmem m' = devmem m
        end).
Proof.
  intros parse_input m path reg addr width size offset Hreg Haddr Hw Hbad.
  destruct (map_mem_runs (private_data m) auto_mem_map (to_off_t addr) 4 m)
    as (failed & map' & m1 & Hmap & Hcalls & Hdev & _).
  assert (Hlen : List.length (mmap_calls m1) = S (List.length (mmap_calls m))).
  { rewrite Hcalls, length_app. simpl. lia. }
  split.
  - exists m1. split; [|split; assumption].
    unfold soc_read, bind, get_private, lift.
    rewrite Hreg, Haddr, Hmap.
    destruct (failed =? 0); simpl; [|reflexivity].
    rewrite Hw, Hbad. reflexivity.
  - intros buf. unfold soc_write, bind, get_private, lift. rewrite Hreg.
    destruct (parse_input buf) as [v|]; [|reflexivity].
    exists m1. split; [|split; assumption].
    rewrite Haddr, Hmap.
    destruct (failed =? 0); simpl; [|reflexivity].
    rewrite Hw, Hbad. reflexivity.
Qed.

Lemma unsupported_width_fails_after_mapping_witness :
  exists m',
    soc_read "/blk/ODD" 4096 0 (Fixture.boot Fixture.odd 4096)
      = Done ((- EFAULT, None), m') /\
    List.length (mmap_calls m') = 1%nat /\
    devmem m' = devmem (Fixture.boot Fixture.odd 4096).
Proof.
  refine (proj1 (unsupported_width_fails_after_mapping Misc.parse_input
            (Fixture.boot Fixture.odd 4096) "/blk/ODD" 84 0x20000000 12
            4096 0 _ _ _ _)); vm_compute; reflexivity.
Defined.

(** C2 as stated fails: reading a 12-bit register returns EFAULT, yet
    the call has mapped a page of the device. *)
Lemma unsupported_width_read_still_maps :
  exists m',
    soc_read "/blk/ODD" 4096 0 (Fixture.boot Fixture.odd 4096)
      = Done ((- EFAULT, None), m') /\
    mmap_calls (Fixture.boot Fixture.odd 4096) = [] /\
    mmap_calls m' = [(4096, 0x20000000)].
Proof. eexists. split; [vm_compute; reflexivity|]. split; reflexivity. Qed.

(** ** Text after the numeric token *)

Module MiscFacts.
Import Misc.

Lemma dec_digit_is_hex c : hex_digit c = None -> dec_digit c = None.
Proof.
  unfold hex_digit, dec_digit. cbv zeta.
  destruct ((48 <=? code c) && (code c <=? 57)); [discriminate|reflexivity].
Qed.

Lemma not_continuing_hex rest :
  not_continuing rest = true -> starts_with hex_digit rest = false.
Proof.
  destruct rest as [|c r]; simpl; [reflexivity|].
  destruct (hex_digit c); [discriminate|reflexivity].
Qed.

Lemma not_continuing_dec rest :
  not_continuing rest = true -> starts_with dec_digit rest = false.
Proof.
  destruct rest as [|c r]; simpl; [reflexivity|].
  destruct (hex_digit c) eqn:E; [discriminate|].
  rewrite (dec_digit_is_hex c E). reflexivity.
Qed.

Lemma scan_app digit base rest :
  starts_with digit rest = false ->
  forall tok acc,
    scan digit base (tok ++ rest) acc = scan digit base tok acc.
Proof.
  intros Hrest. induction tok as [|c t IH]; intros acc; simpl.
  - destruct rest as [|c r]; simpl in *; [reflexivity|].
    destruct (digit c); [discriminate|reflexivity].
  - destruct (digit c); [apply IH|reflexivity].
Qed.

Lemma starts_with_app digit tok rest :
  starts_with digit tok = true -> starts_with digit (tok ++ rest) = true.
Proof. destruct tok; simpl; [discriminate|auto]. Qed.

Lemma hex_prefixed_app tok t rest :
  hex_prefixed tok = Some t ->
  hex_prefixed (tok ++ rest) = Some (t ++ rest)%string.
Proof.
  destruct tok as [|c0 [|c1 t1]]; simpl; try discriminate.
  destruct (_ && _); [|discriminate]. intros H. inversion H. reflexivity.
Qed.

Lemma hex_prefixed_app_none tok rest :
  hex_prefixed tok = None ->
  starts_with dec_digit tok = true ->
  not_continuing rest = true ->
  hex_prefixed (tok ++ rest) = None.
Proof.
  destruct tok as [|c0 [|c1 t1]]; simpl; try discriminate.
  - intros _ _ Hrest. destruct rest as [|c r]; simpl in *; [reflexivity|].
    destruct (hex_digit c); [discriminate|].
    apply negb_true_iff in Hrest. rewrite Hrest, andb_false_r. reflexivity.
  - destruct (_ && _); [discriminate|reflexivity].
Qed.

(** Bytes after the numeric token do not change what is parsed. *)
Lemma parse_input_app tok rest v :
  parse_input tok = Some v ->
  not_continuing rest = true ->
  parse_input (tok ++ rest) = Some v.
Proof.
  unfold parse_input. intros Htok Hrest.
  destruct (hex_prefixed tok) as [t|] eqn:E.
  - rewrite (hex_prefixed_app _ _ rest E).
    destruct (starts_with hex_digit t) eqn:Es; [|discriminate].
    rewrite (starts_with_app _ _ rest Es),
      (scan_app _ _ _ (not_continuing_hex _ Hrest)).
    exact Htok.
  - destruct (starts_with dec_digit tok) eqn:Es; [|discriminate].
    rewrite (hex_prefixed_app_none _ _ E Es Hrest),
      (starts_with_app _ _ rest Es),
      (scan_app _ _ _ (not_continuing_dec _ Hrest)).
    exact Htok.
Qed.

End MiscFacts.

(** C6: for a register that resolves, a text that does not parse makes
    [write] return EINVAL and hand the machine back as it was, so no
    mapping was made; and bytes that follow a parsed numeric token change
    neither the value parsed nor the outcome of the write. *)
Theorem write_rejects_unparsed_text :
  forall m path reg size offset,
    find_reg (private_data m) path = Done (Some reg) ->
    (forall text,
        Misc.parse_input text = None ->
        soc_write Misc.parse_input path text size offset m
          = Done (- EINVAL, m)) /\
    (forall tok rest v,
        Misc.parse_input tok = Some v ->
        Misc.not_continuing rest = true ->
        Misc.parse_input (tok ++ rest) = Some v /\
        soc_write Misc.parse_input path (tok ++ rest) size offset m
          = soc_write Misc.parse_input path tok size offset m).
Proof.
  intros m path reg size offset Hreg. split.
  - intros text Htext. unfold soc_write, bind, get_private, lift.
    rewrite Hreg, Htext. reflexivity.
  - intros tok rest v Htok Hrest.
    pose proof (MiscFacts.parse_input_app tok rest v Htok Hrest) as Happ.
    split; [exact Happ|].
    unfold soc_write, bind, get_private, lift.
    rewrite Hreg, Happ, Htok. reflexivity.
Qed.

Lemma write_rejects_unparsed_text_witness :
  soc_write Misc.parse_input "/uart0/CTRL" "not_a_number" 12 0
    (Fixture.boot Fixture.demo 4096)
  = Done (- EINVAL, Fixture.boot Fixture.demo 4096).
Proof.
  refine (proj1 (write_rejects_unparsed_text
            (Fixture.boot Fixture.demo 4096) "/uart0/CTRL" 84 12 0 _)
            "not_a_number"%string _); vm_compute; reflexivity.
Defined.

(** ** The root listing *)

Lemma read_le_range h : forall n p v,
  read_le h p n = Done v -> 0 <= v < 256 ^ Z.of_nat n.
Proof.
  induction n as [|n IH]; intros p v H.
  - simpl in H. inversion H. simpl. lia.
  - cbn [read_le] in H. done_inv H.
    apply IH in E0.
    assert (0 <= code x < 256).
    { unfold code. pose proof (N_ascii_bounded x). lia. }
    rewrite Nat2Z.inj_succ, Z.pow_succ_r by lia. lia.
Qed.

Lemma readdir_tops_lists h :
  forall count top buf tops names,
    tops_chain h count top = Done tops ->
    names_at h tops = Done names ->
    readdir_tops h count top buf = Done (buf ++ names) /\
    List.length names = count.
Proof.
  induction count as [|count IH]; intros top buf tops names Hc Hn.
  - simpl in Hc. done_inv Hc. simpl in Hn. done_inv Hn.
    simpl. rewrite app_nil_r. auto.
  - cbn [tops_chain] in Hc. done_inv Hc.
    cbn [names_at] in Hn. done_inv Hn.
    cbn [readdir_tops]. rewrite E1, E. cbn [rbind].
    destruct (IH x (filler buf x1) x0 x2 E0 E2) as [Hr Hl].
    rewrite Hr. unfold filler. rewrite <- app_assoc. simpl. auto.
Qed.

(** C7 (as amended): the root listing is ".", "..", then the name of
    every block in on-disk order, [block_count + 2] entries in all; no
    entry occurs twice when the block names are unique and none of them
    is "." or "..". *)
Theorem root_listing :
  forall m offset n names,
    block_count (header (private_data m)) = Done n ->
    block_names (header (private_data m)) = Done names ->
    let listing := "."%string :: ".."%string :: names in
    soc_readdir "/" [] offset m = Done ((0, listing), m) /\
    Z.of_nat (List.length listing) = n + 2 /\
    (NoDup names -> ~ In "."%string names -> ~ In ".."%string names ->
     NoDup listing).
Proof.
  intros m offset n names Hn Hnames listing.
  unfold block_names in Hnames. rewrite Hn in Hnames. simpl in Hnames.
  done_inv Hnames.
  destruct (readdir_tops_lists _ _ _ ["."%string; ".."%string] _ _ E Hnames)
    as [Hr Hl].
  split; [|split].
  - unfold soc_readdir, bind, get_private, lift. simpl.
    unfold block_count in Hn. rewrite Hn. unfold filler. simpl.
    rewrite Hr. reflexivity.
  - unfold listing. simpl List.length. rewrite Hl.
    pose proof (read_le_range _ _ _ _ Hn). lia.
  - intros Hnd Hdot Hdotdot. unfold listing.
    apply NoDup_cons; [|apply NoDup_cons; assumption].
    simpl. intros [Heq|Hin]; [discriminate|contradiction].
Qed.

Lemma root_listing_witness :
  soc_readdir "/" [] 0 (Fixture.boot Fixture.demo 4096)
    = Done ((0, ["."%string; ".."%string; "uart0"%string]),
            Fixture.boot Fixture.demo 4096) /\
  Z.of_nat 3 = 1 + 2 /\
  (NoDup ["uart0"%string] -> ~ In "."%string ["uart0"%string] ->
   ~ In ".."%string ["uart0"%string] ->
   NoDup ["."%string; ".."%string; "uart0"%string]).
Proof.
  refine (root_listing (Fixture.boot Fixture.demo 4096) 0 1
            ["uart0"%string] _ _); vm_compute; reflexivity.
Defined.

(** C7 as stated fails: the only block is named ".", so the block names
    are unique, and the listing holds "." twice. *)
Lemma root_listing_repeats_dot :
  block_names Fixture.dotted = Done ["."%string] /\
  NoDup ["."%string] /\
  soc_readdir "/" [] 0 (Fixture.boot Fixture.dotted 4096)
    = Done ((0, ["."%string; ".."%string; "."%string]),
            Fixture.boot Fixture.dotted 4096) /\
  ~ NoDup ["."%string; ".."%string; "."%string].
Proof.
  split; [vm_compute; reflexivity|].
  split; [repeat constructor; simpl; tauto|].
  split; [vm_compute; reflexivity|].
  intros H. inversion H as [|x l Hin _]; subst. apply Hin. simpl. auto.
Qed.

(** ** Loading the descriptor *)

Lemma byte_at_firstn k h p :
  0 <= p < Z.of_nat k -> byte_at (firstn k h) p = byte_at h p.
Proof.
  intros Hp. unfold byte_at.
  destruct (p <? 0) eqn:E; [apply Z.ltb_lt in E; lia|].
  rewrite nth_error_firstn.
  destruct (Nat.ltb_spec (Z.to_nat p) k); [reflexivity|lia].
Qed.

Lemma read_le_firstn k h :
  forall n p,
    0 <= p -> p + Z.of_nat n <= Z.of_nat k ->
    read_le (firstn k h) p n = read_le h p n.
Proof.
  induction n as [|n IH]; intros p Hp Hk; [reflexivity|].
  cbn [read_le]. rewrite byte_at_firstn by lia.
  rewrite IH by lia. reflexivity.
Qed.

Lemma read_le_same_prefix k h h' n p :
  firstn k h' = firstn k h ->
  0 <= p /\ p + Z.of_nat n <= Z.of_nat k ->
  read_le h' p n = read_le h p n.
Proof.
  intros Hpre [Hp Hk].
  rewrite <- (read_le_firstn k h' n p Hp Hk), Hpre.
  apply read_le_firstn; assumption.
Qed.

Lemma main_unfold file fd :
  main file fd =
  match read_u32 file Layout.hdr_magic with
  | Fault => Fault
  | Done magic =>
      if negb (magic =? SOC_MAGIC) then Done (Exit 1)
      else match read_u32 file Layout.hdr_version with
           | Fault => Fault
           | Done version =>
               if negb (version =? 1) then Done (Exit 1)
               else Done (Serving {| header := file; mem_fd := fd |})
           end
  end.
Proof. reflexivity. Qed.

(** C9 (as amended): loading looks at the magic and version words only.
    A descriptor is served exactly when they read 0x57a32bcd and 1, the
    image is taken over unchanged, and no byte after the first eight,
    name fields included, has a say in the decision. *)
Theorem main_checks_magic_and_version_only :
  forall file fd,
    (main file fd = Done (Serving {| header := file; mem_fd := fd |}) <->
     read_u32 file Layout.hdr_magic = Done SOC_MAGIC /\
     read_u32 file Layout.hdr_version = Done 1) /\
    (forall private,
        main file fd = Done (Serving private) ->
        private = {| header := file; mem_fd := fd |}) /\
    (forall file',
        firstn 8 file' = firstn 8 file ->
        accepts (main file' fd) = accepts (main file fd)).
Proof.
  intros file fd. split; [|split].
  - rewrite main_unfold.
    destruct (read_u32 file Layout.hdr_magic) as [magic|];
      [|split; [discriminate|intros [? _]; discriminate]].
    destruct (Z.eqb_spec magic SOC_MAGIC) as [->|Hm]; cbn [negb].
    + destruct (read_u32 file Layout.hdr_version) as [version|];
        [|split; [discriminate|intros [_ ?]; discriminate]].
      destruct (Z.eqb_spec version 1) as [->|Hv]; cbn [negb].
      * split; auto.
      * split; [discriminate|]. intros [_ H]. apply Done_inj in H. tauto.
    + split; [discriminate|]. intros [H _]. apply Done_inj in H. tauto.
  - intros private. rewrite main_unfold.
    destruct (read_u32 file Layout.hdr_magic) as [magic|];
      [|discriminate].
    destruct (negb (magic =? SOC_MAGIC)); [discriminate|].
    destruct (read_u32 file Layout.hdr_version) as [version|];
      [|discriminate].
    destruct (negb (version =? 1)); [discriminate|].
    intros H. apply Done_inj in H. congruence.
  - intros file' Hpre. rewrite !main_unfold. unfold read_u32.
    rewrite (read_le_same_prefix 8 file file' 4 Layout.hdr_magic Hpre)
      by (vm_compute; split; discriminate).
    rewrite (read_le_same_prefix 8 file file' 4 Layout.hdr_version Hpre)
      by (vm_compute; split; discriminate).
    destruct (read_le file Layout.hdr_magic 4) as [magic|];
      [|reflexivity].
    destruct (negb (magic =? SOC_MAGIC)); [reflexivity|].
    destruct (read_le file Layout.hdr_version 4) as [version|];
      [|reflexivity].
    destruct (negb (version =? 1)); reflexivity.
Qed.

Lemma main_checks_magic_and_version_only_witness :
  accepts (main Fixture.unterminated 3) = accepts (main Fixture.demo 3).
Proof.
  refine (proj2 (proj2 (main_checks_magic_and_version_only
                          Fixture.demo 3)) Fixture.unterminated _).
  vm_compute. reflexivity.
Defined.

(** C9 as stated fails: a descriptor whose block name fills all 32 bytes
    of its field, with no terminator, is served; the name then listed
    runs on into the bytes of [reg_count]. *)
Lemma unterminated_name_is_served :
  forallb (fun c => negb (Ascii.eqb c NUL))
          (firstn 32 (skipn 44 Fixture.unterminated)) = true /\
  main Fixture.unterminated 3
    = Done (Serving {| header := Fixture.unterminated; mem_fd := 3 |}) /\
  exists name,
    soc_readdir "/" [] 0 (Fixture.boot Fixture.unterminated 4096)
      = Done ((0, ["."%string; ".."%string; name]),
              Fixture.boot Fixture.unterminated 4096) /\
    Z.of_nat (String.length name) = 33 /\
    33 > MAX_TOP_NAME.
Proof.
  split; [vm_compute; reflexivity|].
  split; [vm_compute; reflexivity|].
  eexists. split; [vm_compute; reflexivity|].
  split; vm_compute; reflexivity.
Qed.

(** ** The text of a read *)

(** [HexString.Raw.of_pos] takes four bits of [p] at a time. *)
Lemma of_pos_lower :
  forall (p : positive) (rest : string),
    all_lower_hex rest = true ->
    all_lower_hex (HexString.Raw.of_pos p rest) = true.
Proof.
  fix IH 1. intros p rest H.
  do 4 try destruct p as [p|p|]; try (cbn; exact H);
    cbn [HexString.Raw.of_pos]; apply IH; cbn; exact H.
Qed.

Lemma of_pos_nonempty :
  forall (p : positive) (rest : string),
    HexString.Raw.of_pos p rest <> EmptyString.
Proof.
  fix IH 1. intros p rest.
  do 4 try destruct p as [p|p|]; try (cbn; discriminate);
    cbn [HexString.Raw.of_pos]; apply IH.
Qed.

Lemma llx_lower_hex n : lower_hex (llx n) = true.
Proof.
  unfold llx. destruct (Z.to_N n) as [|p]; [reflexivity|].
  pose proof (of_pos_nonempty p EmptyString) as Hne.
  pose proof (of_pos_lower p EmptyString eq_refl) as Hl.
  destruct (HexString.Raw.of_pos p EmptyString); [congruence|exact Hl].
Qed.

(** Reading the digits back gives the number printed. *)
Lemma llx_value n : HexString.Raw.to_N (llx n) 0 = Z.to_N n.
Proof.
  pose proof (HexString.to_N_of_N (Z.to_N n)) as H.
  unfold llx. destruct (Z.to_N n) as [|p]; [reflexivity|exact H].
Qed.

(** ** Accesses next to a page boundary *)

Lemma map_mem_eq private map target width m :
  let page := getpagesize m in
  let len := map_length page target width in
  let off := page_base page target in
  let o := page_offset page target in
  let b := os_mmap m (List.length (mmap_calls m)) len off in
  map_mem private map target width m =
  if b =? MAP_FAILED
  then Done ((1, {| virt_addr := virt_addr map; map_base := b;
                    offset_in_page := o; mapped_size := len |}),
             log_mmap m len off)
  else Done ((0, {| virt_addr := b + o; map_base := b;
                    offset_in_page := o; mapped_size := len |}),
             mapped m b len off).
Proof.
  cbv zeta. unfold map_mem, bind, mmap, ret, mapped, map_length, page_base,
    page_offset. cbv zeta.
  destruct (os_mmap m _ _ _ =? MAP_FAILED) eqn:E; rewrite E; reflexivity.
Qed.

Section PowerOfTwoPages.

Variable k : Z.
Hypothesis k_range : 0 <= k < 31.

Lemma wrap32_page : wrap32 (2 ^ k) = 2 ^ k.
Proof.
  unfold wrap32. apply Z.mod_small. split; [apply Z.pow_nonneg; lia|].
  apply Z.pow_lt_mono_r; lia.
Qed.

Lemma page_offset_pow2 target :
  page_offset (2 ^ k) target = target mod 2 ^ k.
Proof.
  unfold page_offset. rewrite wrap32_page.
  assert (H32 : 2 ^ k < 2 ^ 32) by (apply Z.pow_lt_mono_r; lia).
  assert (Hpos : 0 < 2 ^ k) by (apply Z.pow_pos_nonneg; lia).
  replace (wrap32 (2 ^ k - 1)) with (Z.ones k).
  - rewrite Z.land_ones by lia. unfold wrap32.
    apply Z.mod_mod_divide.
    exists (2 ^ (32 - k)). rewrite <- Z.pow_add_r by lia. f_equal. lia.
  - rewrite Z.ones_equiv. unfold wrap32.
    rewrite Z.mod_small; lia.
Qed.

Lemma page_base_pow2 target :
  page_base (2 ^ k) target = target - target mod 2 ^ k.
Proof.
  unfold page_base. rewrite wrap32_page.
  assert (H32 : 2 ^ k < 2 ^ 32) by (apply Z.pow_lt_mono_r; lia).
  assert (Hpos : 0 < 2 ^ k) by (apply Z.pow_pos_nonneg; lia).
  replace (wrap32 (2 ^ k - 1)) with (Z.ones k).
  - rewrite <- Z.ldiff_land, Z.ldiff_ones_r by lia.
    rewrite Z.shiftr_div_pow2, Z.shiftl_mul_pow2 by lia.
    pose proof (Z.div_mod target (2 ^ k)). lia.
  - rewrite Z.ones_equiv. unfold wrap32.
    rewrite Z.mod_small; lia.
Qed.

(** The bytes behind the mapping start at the register's address. *)
Lemma page_base_offset target :
  page_base (2 ^ k) target + page_offset (2 ^ k) target = target.
Proof. rewrite page_base_pow2, page_offset_pow2. lia. Qed.

Lemma map_length_pow2 target width :
  0 <= width < 2 ^ 63 ->
  map_length (2 ^ k) target width =
  if target mod 2 ^ k + width >? 2 ^ k then 2 * 2 ^ k else 2 ^ k.
Proof.
  intros Hw. unfold map_length. rewrite page_offset_pow2, wrap32_page.
  assert (H31 : 2 ^ k <= 2 ^ 30) by (apply Z.pow_le_mono_r; lia).
  assert (Hpos : 0 < 2 ^ k) by (apply Z.pow_pos_nonneg; lia).
  pose proof (Z.mod_pos_bound target (2 ^ k) Hpos) as Ho.
  unfold wrap64, wrap32.
  rewrite (Z.mod_small (target mod 2 ^ k + width)) by lia.
  rewrite (Z.mod_small (2 ^ k * 2)) by lia.
  destruct (_ >? _); lia.
Qed.

(** [map_mem] does what its comment says for the width it is given: two
    pages exactly when the access spans pages, and the [width] bytes at
    the address computed lie inside the mapped window. *)
Lemma map_mem_window private map target width m map' m' :
  getpagesize m = 2 ^ k ->
  0 <= width <= 2 ^ k ->
  map_mem private map target width m = Done ((0, map'), m') ->
  offset_in_page map' = target mod 2 ^ k /\
  (mapped_size map' = 2 * 2 ^ k <-> offset_in_page map' + width > 2 ^ k) /\
  (mapped_size map' = 2 ^ k <-> offset_in_page map' + width <= 2 ^ k) /\
  map_base map' <= virt_addr map' /\
  virt_addr map' + width <= map_base map' + mapped_size map'.
Proof.
  intros Hpage Hw H. rewrite map_mem_eq in H. cbv zeta in H.
  assert (H31 : 2 ^ k <= 2 ^ 30) by (apply Z.pow_le_mono_r; lia).
  assert (Hpos : 0 < 2 ^ k) by (apply Z.pow_pos_nonneg; lia).
  pose proof (Z.mod_pos_bound target (2 ^ k) Hpos) as Ho.
  destruct (_ =? MAP_FAILED); [discriminate|].
  apply Done_inj in H. apply pair_equal_spec in H. destruct H as [H _].
  apply pair_equal_spec in H. destruct H as [_ H]. subst map'.
  cbn [offset_in_page mapped_size map_base virt_addr].
  rewrite Hpage, page_offset_pow2, map_length_pow2 by lia.
  destruct (Z.gtb_spec (target mod 2 ^ k + width) (2 ^ k)); lia.
Qed.

End PowerOfTwoPages.

(** C1: with 4096-byte pages, the 64-bit register at page offset 0xffa
    has offset + 8 > 4096, yet [soc_read] maps one page for it, the
    eight bytes at the computed address end past the mapped window, and
    the load faults; the 8-bit register at offset 0xffd has
    offset + 1 <= 4096, yet two pages are mapped.  [map_mem] is called
    with the constant 4 where the byte width of the register belongs. *)
Theorem straddling_access_leaves_window :
  let m := Fixture.boot Fixture.straddle 4096 in
  let h := header (private_data m) in
  find_reg (private_data m) "/blk/WIDE" = Done (Some 84) /\
  read_u64 h (84 + Layout.reg_addr) = Done 0x10000ffa /\
  read_u32 h (84 + Layout.reg_width) = Done 64 /\
  (exists m1,
      map_mem (private_data m) auto_mem_map (to_off_t 0x10000ffa) 4 m
      = Done ((0, {| virt_addr := 0x7f0000000ffa;
                     map_base := 0x7f0000000000;
                     offset_in_page := 0xffa;
                     mapped_size := 4096 |}), m1)) /\
  0xffa + 64 / 8 > 4096 /\
  0x7f0000000ffa + 64 / 8 > 0x7f0000000000 + 4096 /\
  soc_read "/blk/WIDE" 4096 0 m = Fault /\
  find_reg (private_data m) "/blk/BYTE" = Done (Some 160) /\
  read_u64 h (160 + Layout.reg_addr) = Done 0x10000ffd /\
  read_u32 h (160 + Layout.reg_width) = Done 8 /\
  (exists m1,
      map_mem (private_data m) auto_mem_map (to_off_t 0x10000ffd) 4 m
      = Done ((0, {| virt_addr := 0x7f0000000ffd;
                     map_base := 0x7f0000000000;
                     offset_in_page := 0xffd;
                     mapped_size := 8192 |}), m1)) /\
  0xffd + 8 / 8 <= 4096.
Proof.
  cbv zeta.
  repeat match goal with
         | |- _ /\ _ => split
         | |- exists _, _ => eexists
         end; vm_compute; try reflexivity; discriminate.
Qed.

(** ** Loads and stores through a mapping *)

Lemma set_devmem_same m : set_devmem m (devmem m) = m.
Proof. destruct m. reflexivity. Qed.

Lemma translate_head m mp rest va :
  mappings m = mp :: rest ->
  m_base mp <= va < m_base mp + m_len mp ->
  translate m va = Some (m_off mp + (va - m_base mp)).
Proof.
  intros Hm Hva. unfold translate. rewrite Hm. cbn [find].
  unfold covers.
  destruct (Z.leb_spec (m_base mp) va); [|lia].
  destruct (Z.ltb_spec va (m_base mp + m_len mp)); [|lia].
  reflexivity.
Qed.

Lemma store_in_mapping mp rest :
  forall n va v m,
    mappings m = mp :: rest ->
    m_base mp <= va ->
    va + Z.of_nat n <= m_base mp + m_len mp ->
    store n va v m =
    Done (set_devmem m
            (poke_le (devmem m) (m_off mp + (va - m_base mp)) n v)).
Proof.
  induction n as [|n IH]; intros va v m Hm Hlo Hhi.
  - cbn [store poke_le]. rewrite set_devmem_same. reflexivity.
  - cbn [store poke_le].
    rewrite (translate_head m mp rest va Hm) by lia.
    rewrite IH by (cbn [mappings set_devmem]; try assumption; lia).
    cbn [devmem set_devmem].
    replace (m_off mp + (va + 1 - m_base mp))
      with (m_off mp + (va - m_base mp) + 1) by lia.
    reflexivity.
Qed.

Lemma load_in_mapping mp rest :
  forall n va m,
    mappings m = mp :: rest ->
    m_base mp <= va ->
    va + Z.of_nat n <= m_base mp + m_len mp ->
    load n va m =
    Done (peek_le (devmem m) (m_off mp + (va - m_base mp)) n).
Proof.
  induction n as [|n IH]; intros va m Hm Hlo Hhi.
  - reflexivity.
  - cbn [load peek_le].
    rewrite (translate_head m mp rest va Hm) by lia.
    rewrite IH by (try assumption; lia). cbn [rbind].
    replace (m_off mp + (va + 1 - m_base mp))
      with (m_off mp + (va - m_base mp) + 1) by lia.
    reflexivity.
Qed.

Lemma poke_le_below :
  forall n d pa v a, a < pa -> poke_le d pa n v a = d a.
Proof.
  induction n as [|n IH]; intros d pa v a Ha; cbn [poke_le].
  - reflexivity.
  - rewrite IH by lia. unfold poke.
    destruct (Z.eqb_spec a pa); [lia|reflexivity].
Qed.

(** The bytes stored are the bytes loaded: the value modulo 256^n. *)
Lemma peek_poke :
  forall n d pa v,
    peek_le (poke_le d pa n v) pa n = v mod 256 ^ Z.of_nat n.
Proof.
  induction n as [|n IH]; intros d pa v.
  - cbn [peek_le]. rewrite Z.pow_0_r, Z.mod_1_r. reflexivity.
  - cbn [peek_le poke_le]. rewrite IH.
    rewrite poke_le_below by lia. unfold poke. rewrite Z.eqb_refl.
    rewrite Z.mod_mod by lia.
    rewrite Nat2Z.inj_succ, Z.pow_succ_r by lia.
    rewrite (Z.rem_mul_r v 256 (256 ^ Z.of_nat n)); [reflexivity|lia|].
    apply Z.pow_pos_nonneg; lia.
Qed.

Lemma supported_width_bytes w :
  supported_width w = true ->
  256 ^ Z.of_nat (Z.to_nat (w / 8)) = 2 ^ w /\ 1 <= w / 8 <= 8 /\
  (w <= 32 -> w / 8 <= 4) /\ (32 < w -> w = 64).
Proof.
  unfold supported_width. intros H.
  repeat (apply orb_true_iff in H; destruct H as [H|H]);
    apply Z.eqb_eq in H; subst w;
    (split; [reflexivity|]); change (8 / 8) with 1; change (16 / 8) with 2;
    change (32 / 8) with 4; change (64 / 8) with 8; lia.
Qed.

Lemma page_offset_nonneg page target : 0 <= page_offset page target.
Proof.
  unfold page_offset. apply Z.land_nonneg. left. unfold wrap32.
  apply Z.mod_pos_bound. lia.
Qed.

(** ** What a read shows *)

Lemma land_split x mask : Z.land x mask + Z.land x (Z.lnot mask) = x.
Proof.
  rewrite Z.add_nocarry_lxor.
  - apply Z.bits_inj'. intros n Hn.
    rewrite Z.lxor_spec, !Z.land_spec, Z.lnot_spec by lia.
    destruct (Z.testbit x n), (Z.testbit mask n); reflexivity.
  - apply Z.bits_inj'. intros n Hn.
    rewrite !Z.land_spec, Z.lnot_spec, Z.bits_0 by lia.
    destruct (Z.testbit x n), (Z.testbit mask n); reflexivity.
Qed.

(** The file offset mapped and the offset in the page add up to the
    target address, whatever the page size. *)
Lemma page_split page target :
  page_base page target + page_offset page target = target.
Proof.
  unfold page_base, page_offset.
  set (mask := wrap32 (wrap32 page - 1)).
  assert (Hm : 0 <= mask < 2 ^ 32) by (apply Z.mod_pos_bound; reflexivity).
  assert (E : Z.land (wrap32 target) mask = Z.land target mask).
  { unfold wrap32 at 1. rewrite <- Z.land_ones by lia.
    rewrite <- Z.land_assoc. f_equal.
    rewrite Z.land_comm, Z.land_ones by lia. apply Z.mod_small. exact Hm. }
  rewrite E, Z.add_comm. apply land_split.
Qed.

(** A load that returns gives the bytes seen through the live
    mappings, the first byte the least significant. *)
Lemma load_seen :
  forall n va m v,
    load n va m = Done v ->
    v = peek_le (seen (mappings m) (devmem m)) va n.
Proof.
  induction n as [|n IH]; intros va m v H; cbn [load] in H.
  - apply Done_inj in H. subst v. reflexivity.
  - unfold translate in H. cbn [peek_le]. unfold seen at 1.
    destruct (find (covers va) (mappings m)) as [mp|]; [|discriminate].
    done_inv H. rewrite <- (IH _ _ _ E). reflexivity.
Qed.

(** C8: a read that succeeds leaves in the buffer the text
    "0x<address> -> 0x<value>" and a newline, address and value in
    lowercase hexadecimal, and returns its length; the same text comes
    back whatever offset the caller passes.  The value is the one the
    load took from physical memory: the [width / 8] bytes seen at the
    address computed by [map_mem], through the window just mapped and
    the mappings still live, as a little-endian number; where these
    bytes lie inside the window they are the bytes of physical memory
    at the register's address.  Physical memory is left as it was. *)
Theorem read_text_ignores_offset :
  forall m path size offset res text m',
    soc_read path size offset m = Done ((res, Some text), m') ->
    (exists reg addr width value,
        find_reg (private_data m) path = Done (Some reg) /\
        read_u64 (header (private_data m)) (reg + Layout.reg_addr)
          = Done addr /\
        read_u32 (header (private_data m)) (reg + Layout.reg_width)
          = Done width /\
        supported_width width = true /\
        text = ("0x" ++ llx addr ++ " -> 0x" ++ llx value ++ newline)%string /\
        lower_hex (llx addr) = true /\
        lower_hex (llx value) = true /\
        HexString.Raw.to_N (llx addr) 0 = Z.to_N addr /\
        HexString.Raw.to_N (llx value) 0 = Z.to_N value /\
        res = to_int (Z.of_nat (String.length text)) /\
        (let target := to_off_t addr in
         let o := page_offset (getpagesize m) target in
         let len := map_length (getpagesize m) target 4 in
         let off := page_base (getpagesize m) target in
         let b := os_mmap m (List.length (mmap_calls m)) len off in
         let window := {| m_base := b; m_len := len; m_off := off |} in
         let n := Z.to_nat (width / 8) in
         b <> MAP_FAILED /\
         value = peek_le (seen (window :: mappings m) (devmem m)) (b + o) n /\
         (o + width / 8 <= len -> value = peek_le (devmem m) target n) /\
         devmem m' = devmem m)) /\
    (forall offset',
        soc_read path size offset' m = Done ((res, Some text), m')).
Proof.
  intros m path size offset res text m' H. split; [|intros offset'; exact H].
  unfold soc_read, bind, get_private, lift in H.
  destruct (find_reg (private_data m) path) as [[reg|]|] eqn:Hreg;
    try discriminate.
  destruct (read_u64 _ _) as [addr|] eqn:Haddr; [|discriminate].
  rewrite map_mem_eq in H. cbv zeta in H.
  set (target := to_off_t addr) in *.
  set (o := page_offset (getpagesize m) target) in *.
  set (len := map_length (getpagesize m) target 4) in *.
  set (off := page_base (getpagesize m) target) in *.
  set (b := os_mmap m (List.length (mmap_calls m)) len off) in *.
  destruct (Z.eqb_spec b MAP_FAILED) as [Hb|Hb]; [discriminate|].
  change (negb (0 =? 0)) with false in H. cbv iota in H.
  destruct (read_u32 _ _) as [width|] eqn:Hwidth; [|discriminate].
  destruct (supported_width width) eqn:Hsup; [|discriminate].
  unfold volatile_load in H. cbn [virt_addr] in H.
  destruct (load _ _ _) as [value|] eqn:Hload; [|discriminate].
  cbn [rbind] in H. unfold unmap_mem, bind, munmap, ret in H.
  destruct (_ <=? size); [|discriminate].
  apply Done_inj, pair_equal_spec in H. destruct H as [Hres <-].
  apply pair_equal_spec in Hres. destruct Hres as [<- Htext].
  assert (Ht : text = sprintf_reg addr value) by congruence.
  subst text. clear Htext.
  exists reg, addr, width, value.
  repeat match goal with |- _ /\ _ => split end;
    auto using llx_lower_hex, llx_value.
  cbv zeta.
  destruct (supported_width_bytes width Hsup) as (_ & Hbytes & _).
  pose proof (page_offset_nonneg (getpagesize m) target) as Ho.
  fold o in Ho.
  split; [exact Hb|]. split; [exact (load_seen _ _ _ _ Hload)|].
  split; [|reflexivity].
  intros Hfit. change (o + width / 8 <= len) in Hfit. fold target.
  rewrite (load_in_mapping
             {| m_base := b; m_len := len; m_off := off |} (mappings m))
    in Hload by (cbn [m_base m_len]; try reflexivity; lia).
  apply Done_inj in Hload. subst value. cbn [m_base m_off].
  change (devmem (mapped m b len off)) with (devmem m).
  f_equal. pose proof (page_split (getpagesize m) target) as Hsplit.
  fold off in Hsplit. fold o in Hsplit. lia.
Qed.

Lemma read_text_ignores_offset_witness :
  exists m',
    soc_read "/uart0/CTRL" 4096 7
      (Fixture.holding Fixture.demo 4096 0x10000000 4 0x12345678)
    = Done ((25, Some ("0x10000000 -> 0x12345678" ++ newline)%string), m').
Proof.
  eexists.
  refine (proj2 (read_text_ignores_offset
            (Fixture.holding Fixture.demo 4096 0x10000000 4 0x12345678)
            "/uart0/CTRL" 4096 0 _ _ _ _) 7).
  vm_compute. reflexivity.
Defined.

Section Access.

Variable parse_input : string -> option Z.
Variables (m : machine) (path : string) (reg addr width : Z).

Hypothesis Hreg : find_reg (private_data m) path = Done (Some reg).
Hypothesis Haddr :
  read_u64 (header (private_data m)) (reg + Layout.reg_addr) = Done addr.
Hypothesis Hwidth :
  read_u32 (header (private_data m)) (reg + Layout.reg_width) = Done width.
Hypothesis Hsup : supported_width width = true.

Let page := getpagesize m.
Let len := map_length page (to_off_t addr) 4.
Let off := page_base page (to_off_t addr).
Let o := page_offset page (to_off_t addr).
Let b := os_mmap m (List.length (mmap_calls m)) len off.

Hypothesis Hmapped : b <> MAP_FAILED.
Hypothesis Hfits : o + width / 8 <= len.

Lemma soc_write_through buf v size offset :
  parse_input buf = Some v ->
  exists m1,
    soc_write parse_input path buf size offset m = Done (to_int size, m1) /\
    private_data m1 = private_data m /\
    getpagesize m1 = getpagesize m /\
    os_mmap m1 = os_mmap m /\
    mmap_calls m1 = mmap_calls m ++ [(len, off)] /\
    devmem m1 = poke_le (devmem m) (off + o) (Z.to_nat (width / 8)) v.
Proof.
  intros Hparse.
  destruct (supported_width_bytes width Hsup) as (_ & Hbytes & _).
  pose proof (page_offset_nonneg page (to_off_t addr)) as Ho.
  unfold soc_write, bind, get_private, lift.
  rewrite Hreg, Hparse, Haddr, map_mem_eq. cbv zeta.
  fold page. fold len. fold off. fold o. fold b.
  destruct (Z.eqb_spec b MAP_FAILED) as [|_]; [contradiction|].
  change (negb (0 =? 0)) with false. cbv iota.
  rewrite Hwidth, Hsup.
  unfold volatile_store. cbn [virt_addr].
  rewrite (store_in_mapping
             {| m_base := b; m_len := len; m_off := off |} (mappings m))
    by (cbn [m_base m_len]; try reflexivity; fold o; lia).
  cbn [rbind m_base m_off]. unfold unmap_mem, bind, munmap, ret.
  eexists. split; [reflexivity|].
  cbn. repeat split. f_equal. lia.
Qed.

Lemma soc_read_through size offset :
  let value := peek_le (devmem m) (off + o) (Z.to_nat (width / 8)) in
  let text := sprintf_reg addr value in
  Z.of_nat (String.length text) + 1 <= size ->
  exists m1,
    soc_read path size offset m
      = Done ((to_int (Z.of_nat (String.length text)), Some text), m1) /\
    private_data m1 = private_data m /\
    devmem m1 = devmem m.
Proof.
  intros value text Hsize.
  destruct (supported_width_bytes width Hsup) as (_ & Hbytes & _).
  pose proof (page_offset_nonneg page (to_off_t addr)) as Ho.
  unfold soc_read, bind, get_private, lift.
  rewrite Hreg, Haddr, map_mem_eq. cbv zeta.
  fold page. fold len. fold off. fold o. fold b.
  destruct (Z.eqb_spec b MAP_FAILED) as [|_]; [contradiction|].
  change (negb (0 =? 0)) with false. cbv iota.
  rewrite Hwidth, Hsup.
  unfold volatile_load. cbn [virt_addr].
  rewrite (load_in_mapping
             {| m_base := b; m_len := len; m_off := off |} (mappings m))
    by (cbn [m_base m_len]; try reflexivity; fold o; lia).
  cbn [rbind m_base m_off]. unfold unmap_mem, bind, munmap, ret.
  replace (off + (b + o - b)) with (off + o) by lia.
  change (devmem (mapped m b len off)) with (devmem m).
  fold value. fold text.
  destruct (Z.leb_spec (Z.of_nat (String.length text) + 1) size); [|lia].
  eexists. split; [reflexivity|]. split; reflexivity.
Qed.

End Access.

(** Where the access fits the window that [map_mem (..., 4)] maps, the
    value written is the value read back, cut to the register's width. *)
Lemma write_then_read :
  forall parse_input m path reg addr width buf v size offset size' offset' k,
    find_reg (private_data m) path = Done (Some reg) ->
    read_u64 (header (private_data m)) (reg + Layout.reg_addr) = Done addr ->
    read_u32 (header (private_data m)) (reg + Layout.reg_width)
      = Done width ->
    supported_width width = true ->
    parse_input buf = Some v ->
    getpagesize m = 2 ^ k ->
    3 <= k < 31 ->
    let target := to_off_t addr in
    let o := target mod 2 ^ k in
    let len := if o + 4 >? 2 ^ k then 2 * 2 ^ k else 2 ^ k in
    os_mmap m (List.length (mmap_calls m)) len (target - o) <> MAP_FAILED ->
    os_mmap m (S (List.length (mmap_calls m))) len (target - o)
      <> MAP_FAILED ->
    (width <= 32 \/ o + 8 <= 2 ^ k \/ 2 ^ k < o + 4) ->
    let text := sprintf_reg addr (v mod 2 ^ width) in
    Z.of_nat (String.length text) + 1 <= size' ->
    exists m1 m2,
      soc_write parse_input path buf size offset m
        = Done (to_int size, m1) /\
      soc_read path size' offset' m1
        = Done ((to_int (Z.of_nat (String.length text)), Some text), m2).
Proof.
  intros parse_input m path reg addr width buf v size offset size' offset' k
    Hreg Haddr Hwidth Hsup Hparse Hpage Hk target o len Hmap1 Hmap2 Hfit
    text Hsize.
  assert (Hk' : 0 <= k < 31) by lia.
  assert (H8 : 8 <= 2 ^ k).
  { change 8 with (2 ^ 3). apply Z.pow_le_mono_r; lia. }
  assert (Ho : 0 <= o < 2 ^ k) by (apply Z.mod_pos_bound; lia).
  destruct (supported_width_bytes width Hsup) as (Hpow & Hbytes & H32 & H64).
  assert (Hlen : map_length (getpagesize m) target 4 = len).
  { rewrite Hpage, (map_length_pow2 k Hk') by lia. reflexivity. }
  assert (Hoff : page_base (getpagesize m) target = target - o).
  { rewrite Hpage. apply (page_base_pow2 k Hk'). }
  assert (Hofs : page_offset (getpagesize m) target = o).
  { rewrite Hpage. apply (page_offset_pow2 k Hk'). }
  assert (Hwin : o + width / 8 <= len).
  { unfold len. destruct (Z.gtb_spec (o + 4) (2 ^ k)); lia. }
  destruct (soc_write_through parse_input m path reg addr width
              Hreg Haddr Hwidth Hsup) with (buf := buf) (v := v)
              (size := size) (offset := offset)
    as (m1 & Hwrite & Hp1 & Hg1 & Ho1 & Hc1 & Hd1).
  { fold target. rewrite Hlen, Hoff. exact Hmap1. }
  { fold target. rewrite Hlen, Hofs. exact Hwin. }
  { exact Hparse. }
  fold target in Hc1, Hd1. rewrite Hlen, Hoff in Hc1.
  rewrite Hoff, Hofs in Hd1.
  exists m1.
  destruct (soc_read_through m1 path reg addr width) with (size := size')
    (offset := offset') as (m2 & Hread & _).
  - rewrite Hp1. exact Hreg.
  - rewrite Hp1. exact Haddr.
  - rewrite Hp1. exact Hwidth.
  - exact Hsup.
  - fold target. rewrite Hg1, Ho1, Hc1, Hlen, Hoff, length_app.
    cbn [List.length]. rewrite Nat.add_1_r. exact Hmap2.
  - fold target. rewrite Hg1, Hlen, Hofs. exact Hwin.
  - fold target. rewrite Hg1, Hoff, Hofs, Hd1, peek_poke, Hpow.
    exact Hsize.
  - exists m2. split; [exact Hwrite|].
    fold target in Hread.
    rewrite Hg1, Hoff, Hofs, Hd1, peek_poke, Hpow in Hread. exact Hread.
Qed.

(** C3: writing the 64-bit register at page offset 0xffa does not
    return: one page is mapped and the store of eight bytes runs past
    it, so no read can follow and report the value.  For the register
    of the scenario the value written is the value read back. *)
Theorem straddling_write_faults :
  soc_write Misc.parse_input "/blk/WIDE" "0x1122334455667788" 18 0
    (Fixture.boot Fixture.straddle 4096) = Fault /\
  exists m1 m2,
    soc_write Misc.parse_input "/uart0/CTRL" "0x5" 3 0
      (Fixture.boot Fixture.demo 4096) = Done (3, m1) /\
    soc_read "/uart0/CTRL" 4096 0 m1
      = Done ((18, Some ("0x10000000 -> 0x5" ++ newline)%string), m2).
Proof.
  split; [vm_compute; reflexivity|].
  eexists. eexists.
  split; [vm_compute; reflexivity | vm_compute; reflexivity].
Qed.

(** ** What the block comparison accepts *)

Lemma code_inj c1 c2 : code c1 = code c2 -> c1 = c2.
Proof.
  unfold code. intros H. apply N2Z.inj in H.
  rewrite <- (ascii_N_embedding c1), <- (ascii_N_embedding c2), H.
  reflexivity.
Qed.

Lemma skipn_next {A} (l : list A) :
  forall n c rest, skipn n l = c :: rest -> skipn (S n) l = rest.
Proof.
  induction l as [|a l IH]; intros [|n] c rest H; simpl in *;
    try discriminate.
  - inversion H. reflexivity.
  - destruct l; [destruct n; discriminate|]. eapply IH. exact H.
Qed.

Lemma cstring_step h p t :
  cstring h p = Done t ->
  exists c,
    byte_at h p = Done c /\
    ((c = NUL /\ t = EmptyString) \/
     (c <> NUL /\ exists t', t = String c t' /\ cstring h (p + 1) = Done t')).
Proof.
  unfold cstring, byte_at. intros H.
  destruct (Z.ltb_spec p 0) as [|Hp]; [discriminate|].
  destruct (Z.ltb_spec (p + 1) 0) as [Hp1|_]; [lia|].
  rewrite <- hd_error_skipn.
  destruct (skipn (Z.to_nat p) h) as [|c l] eqn:E; [discriminate|].
  exists c. split; [reflexivity|].
  cbn [cstring_of] in H.
  destruct (Ascii.eqb_spec c NUL) as [->|Hc].
  - left. apply Done_inj in H. auto.
  - right. split; [exact Hc|]. done_inv H.
    exists x. split; [reflexivity|].
    replace (Z.to_nat (p + 1)) with (S (Z.to_nat p)) by lia.
    rewrite (skipn_next h _ _ _ E). exact E0.
Qed.

Lemma strlen_nonneg s : 0 <= strlen s.
Proof.
  induction s as [|c s IH]; cbn [strlen]; [lia|].
  destruct (Ascii.eqb c NUL); lia.
Qed.

(** Called with the length of the query, [strncmp] returns 0 exactly for
    the names that start with the query, whatever follows in the name. *)
Lemma strncmp_accepts_prefix h :
  forall s p t,
    nul_free s = true ->
    cstring h p = Done t ->
    (strncmp s h p (strlen s) = Done 0 <-> String.prefix s t = true).
Proof.
  induction s as [|c s IH]; intros p t Hs Ht.
  - cbn. destruct t; tauto.
  - cbn [nul_free] in Hs. apply andb_true_iff in Hs. destruct Hs as [Hc Hs].
    apply negb_true_iff in Hc.
    pose proof (strlen_nonneg s) as Hlen.
    cbn [strncmp strlen]. rewrite Hc.
    destruct (Z.leb_spec (1 + strlen s) 0) as [Hle|_]; [lia|].
    destruct (cstring_step h p t Ht) as (c2 & Hb & Hcase).
    rewrite Hb. cbn [rbind].
    destruct (Ascii.eqb_spec c c2) as [<-|Hne].
    + destruct Hcase as [[-> _]|[_ (t' & -> & Ht')]];
        [rewrite Ascii.eqb_refl in Hc; discriminate|].
      replace (1 + strlen s - 1) with (strlen s) by lia.
      rewrite (IH (p + 1) t' Hs Ht'). cbn [String.prefix].
      destruct (ascii_dec c c); tauto.
    + assert (Hd : code c - code c2 <> 0).
      { intros Hz. apply Hne, code_inj. lia. }
      split.
      * intros Hz. apply Done_inj in Hz. contradiction.
      * destruct Hcase as [[-> ->]|[_ (t' & -> & _)]]; cbn [String.prefix];
          [discriminate|].
        destruct (ascii_dec c c2); [contradiction|discriminate].
Qed.

Lemma find_top_loop_match h name len :
  forall count top t,
    find_top_loop h name len count top = Done (Some t) ->
    strncmp name h (t + Layout.top_name) len = Done 0.
Proof.
  induction count as [|count IH]; intros top t H; cbn [find_top_loop] in H.
  - apply Done_inj in H. discriminate.
  - destruct (strncmp name h (top + Layout.top_name) len) as [r|] eqn:E;
      cbn [rbind] in H; [|discriminate].
    destruct (Z.eqb_spec r 0) as [->|Hr].
    + apply Done_inj in H. injection H as <-. exact E.
    + destruct (read_u32 h (top + Layout.top_next_offset)) as [next|];
        cbn [rbind] in H; [|discriminate].
      eapply IH. exact H.
Qed.

(** A block returned for a whole-name query has a name that starts with
    the query; nothing makes the two names equal. *)
Lemma find_top_returns_prefix_match private name top t :
  nul_free name = true ->
  find_top private name (strlen name) = Done (Some top) ->
  cstring (header private) (top + Layout.top_name) = Done t ->
  String.prefix name t = true.
Proof.
  intros Hname H Ht. unfold find_top in H.
  destruct (read_u32 (header private) Layout.hdr_top_count) as [n|];
    cbn [rbind] in H; [|discriminate].
  apply find_top_loop_match in H.
  apply (strncmp_accepts_prefix _ _ _ _ Hname Ht). exact H.
Qed.

(** C4: with the blocks uart10 and uart1 in this order, looking up
    "uart1" returns the record of uart10, whose name only starts with
    the queried name; and in the scenario's descriptor the name "uart",
    which no block has, resolves to uart0. *)
Theorem find_top_takes_a_longer_name :
  let twins := {| header := Fixture.twins; mem_fd := 3 |} in
  let demo := {| header := Fixture.demo; mem_fd := 3 |} in
  block_names Fixture.twins = Done ["uart10"%string; "uart1"%string] /\
  tops_chain Fixture.twins 2 Layout.hdr_tops = Done [44; 160] /\
  find_top twins "uart1" (strlen "uart1") = Done (Some 44) /\
  cstring Fixture.twins (44 + Layout.top_name) = Done "uart10"%string /\
  cstring Fixture.twins (160 + Layout.top_name) = Done "uart1"%string /\
  block_names Fixture.demo = Done ["uart0"%string] /\
  find_top demo "uart" (strlen "uart") = Done (Some 44) /\
  cstring Fixture.demo (44 + Layout.top_name) = Done "uart0"%string.
Proof. cbv zeta. repeat split; vm_compute; reflexivity. Qed.

(** C5: in the scenario's descriptor, whose only block is uart0, the
    path /uart1/CTRL resolves to the register CTRL of uart0; and with
    the blocks uart10 and uart1, the path /uart1/CTRL is not found
    although uart1 holds a register CTRL, while /uart1/STAT resolves to
    the register STAT of uart10. *)
Theorem find_reg_compares_a_shortened_block_name :
  let twins := {| header := Fixture.twins; mem_fd := 3 |} in
  let demo := {| header := Fixture.demo; mem_fd := 3 |} in
  block_names Fixture.demo = Done ["uart0"%string] /\
  find_reg demo "/uart1/CTRL" = Done (Some 84) /\
  find_reg demo "/uart0/CTRL" = Done (Some 84) /\
  block_names Fixture.twins = Done ["uart10"%string; "uart1"%string] /\
  cstring Fixture.twins (160 + Layout.top_regs + Layout.reg_name)
    = Done "CTRL"%string /\
  find_reg twins "/uart1/CTRL" = Done None /\
  find_reg twins "/uart1/STAT" = Done (Some (44 + Layout.top_regs)) /\
  cstring Fixture.twins (44 + Layout.top_regs + Layout.reg_name)
    = Done "STAT"%string.
Proof. cbv zeta. repeat split; vm_compute; reflexivity. Qed.

(** * Further properties *)

(** ** Failing accesses *)

(** A path whose register lookup comes back empty makes [read] and
    [write] return ENOENT and leave the machine as it was; for [write]
    this comes before any look at the text. *)
Theorem unresolved_path_is_enoent :
  forall parse_input m path,
    find_reg (private_data m) path = Done None ->
    (forall size offset,
        soc_read path size offset m = Done ((- ENOENT, None), m)) /\
    (forall buf size offset,
        soc_write parse_input path buf size offset m
          = Done (- ENOENT, m)).
Proof.
  intros parse_input m path Hreg. split; intros;
    [unfold soc_read | unfold soc_write];
    unfold bind, get_private, lift; rewrite Hreg; reflexivity.
Qed.

Lemma unresolved_path_is_enoent_witness :
  soc_write Misc.parse_input "/uart0/NONE" "not_a_number" 12 0
    (Fixture.boot Fixture.demo 4096)
  = Done (- ENOENT, Fixture.boot Fixture.demo 4096).
Proof.
  refine (proj2 (unresolved_path_is_enoent Misc.parse_input
            (Fixture.boot Fixture.demo 4096) "/uart0/NONE" _)
            "not_a_number"%string 12 0).
  vm_compute. reflexivity.
Defined.

(** When [mmap] fails, [read] and [write] of a parsed text return
    EFAULT after that one call: nothing is mapped, nothing is loaded or
    stored, and the width of the register is not even read. *)
Theorem failed_mapping_is_efault :
  forall parse_input m path reg addr,
    find_reg (private_data m) path = Done (Some reg) ->
    read_u64 (header (private_data m)) (reg + Layout.reg_addr) = Done addr ->
    let len := map_length (getpagesize m) (to_off_t addr) 4 in
    let off := page_base (getpagesize m) (to_off_t addr) in
    os_mmap m (List.length (mmap_calls m)) len off = MAP_FAILED ->
    (forall size offset,
        soc_read path size offset m
          = Done ((- EFAULT, None), log_mmap m len off)) /\
    (forall buf v size offset,
        parse_input buf = Some v ->
        soc_write parse_input path buf size offset m
          = Done (- EFAULT, log_mmap m len off)).
Proof.
  intros parse_input m path reg addr Hreg Haddr len off Hfail.
  split.
  - intros size offset. unfold soc_read, bind, get_private, lift.
    rewrite Hreg, Haddr, map_mem_eq. cbv zeta.
    fold len. fold off. rewrite Hfail. reflexivity.
  - intros buf v size offset Hparse.
    unfold soc_write, bind, get_private, lift.
    rewrite Hreg, Hparse, Haddr, map_mem_eq. cbv zeta.
    fold len. fold off. rewrite Hfail. reflexivity.
Qed.

Lemma failed_mapping_is_efault_witness :
  soc_read "/uart0/CTRL" 4096 0 (Scene.no_devmem Fixture.demo 4096)
  = Done ((- EFAULT, None),
          log_mmap (Scene.no_devmem Fixture.demo 4096) 4096 0x10000000).
Proof.
  refine (proj1 (failed_mapping_is_efault Misc.parse_input
            (Scene.no_devmem Fixture.demo 4096) "/uart0/CTRL" 84
            0x10000000 _ _ _) 4096 0); vm_compute; reflexivity.
Defined.

(** ** Mappings are per call *)

Lemma unmapped_after b len off l :
  filter (fun mp => negb (same_range b len mp))
         ({| m_base := b; m_len := len; m_off := off |} :: l)
  = filter (fun mp => negb (same_range b len mp)) l.
Proof.
  cbn [filter]. unfold same_range at 1. cbn [m_base m_len].
  rewrite !Z.eqb_refl. reflexivity.
Qed.

Ltac unchanged H :=
  apply Done_inj, pair_equal_spec in H; destruct H as [_ <-];
  left; apply incl_refl.

Lemma store_keeps_mappings n va v m m' :
  store n va v m = Done m' -> mappings m' = mappings m.
Proof.
  apply (preserves_store (fun a b => mappings b = mappings a));
    [reflexivity | intros; congruence | reflexivity].
Qed.

Lemma account_read path size offset m r m' :
  soc_read path size offset m = Done (r, m') -> mapping_account path m m'.
Proof.
  unfold soc_read, bind, get_private, lift. intros H.
  destruct (find_reg (private_data m) path) as [[reg|]|] eqn:Hreg;
    [| unchanged H
     | discriminate ].
  destruct (read_u64 _ _) as [addr|]; [|discriminate].
  rewrite map_mem_eq in H. cbv zeta in H.
  destruct (_ =? MAP_FAILED).
  - unchanged H.
  - change (negb (0 =? 0)) with false in H. cbv iota in H.
    destruct (read_u32 _ _) as [width|] eqn:Hwidth; [|discriminate].
    destruct (supported_width width) eqn:Hsup.
    + unfold volatile_load in H.
      destruct (load _ _ _) as [v|]; [|discriminate].
      cbn [rbind] in H. unfold unmap_mem, bind, munmap, ret in H.
      cbn [map_base mapped_size] in H.
      destruct (_ <=? size); [|discriminate].
      apply Done_inj, pair_equal_spec in H. destruct H as [_ <-].
      left. unfold mapped. cbn [mappings set_mappings log_mmap].
      rewrite unmapped_after. apply incl_filter.
    + apply Done_inj, pair_equal_spec in H. destruct H as [_ <-].
      right. exists reg, width. eexists. repeat split; eauto.
Qed.

Lemma account_write parse_input path buf size offset m r m' :
  soc_write parse_input path buf size offset m = Done (r, m') ->
  mapping_account path m m'.
Proof.
  unfold soc_write, bind, get_private, lift. intros H.
  destruct (find_reg (private_data m) path) as [[reg|]|] eqn:Hreg;
    [| unchanged H
     | discriminate ].
  destruct (parse_input buf) as [v|];
    [| unchanged H ].
  destruct (read_u64 _ _) as [addr|]; [|discriminate].
  rewrite map_mem_eq in H. cbv zeta in H.
  destruct (_ =? MAP_FAILED).
  - unchanged H.
  - change (negb (0 =? 0)) with false in H. cbv iota in H.
    destruct (read_u32 _ _) as [width|] eqn:Hwidth; [|discriminate].
    destruct (supported_width width) eqn:Hsup.
    + unfold volatile_store in H.
      destruct (store _ _ _ _) as [m1|] eqn:Hst; [|discriminate].
      cbn [rbind] in H. unfold unmap_mem, bind, munmap, ret in H.
      cbn [map_base mapped_size] in H.
      apply Done_inj, pair_equal_spec in H. destruct H as [_ <-].
      left. cbn [mappings set_mappings].
      pose proof (store_keeps_mappings _ _ _ _ _ Hst) as Hm1.
      rewrite Hm1. unfold mapped. cbn [mappings set_mappings log_mmap].
      rewrite unmapped_after. apply incl_filter.
    + apply Done_inj, pair_equal_spec in H. destruct H as [_ <-].
      right. exists reg, width. eexists. repeat split; eauto.
Qed.

(** A [read] or [write] that returns has unmapped what it mapped, so
    the live mappings are among those from before the call; the one
    exception is a register whose width has no [case], where the page
    just mapped stays mapped. *)
Theorem mapping_outlives_only_unsupported_width :
  forall parse_input m path,
    (forall size offset r m',
        soc_read path size offset m = Done (r, m') ->
        mapping_account path m m') /\
    (forall buf size offset r m',
        soc_write parse_input path buf size offset m = Done (r, m') ->
        mapping_account path m m').
Proof.
  intros parse_input m path. split.
  - intros size offset r m'. apply account_read.
  - intros buf size offset r m'. apply account_write.
Qed.

Lemma mapping_outlives_only_unsupported_width_witness :
  exists r m',
    soc_read "/blk/ODD" 4096 0 (Fixture.boot Fixture.odd 4096)
      = Done (r, m') /\
    mapping_account "/blk/ODD" (Fixture.boot Fixture.odd 4096) m'.
Proof.
  eexists. eexists.
  assert (E : soc_read "/blk/ODD" 4096 0 (Fixture.boot Fixture.odd 4096)
              = Done (_, _)) by (vm_compute; reflexivity).
  split; [exact E|].
  exact (proj1 (mapping_outlives_only_unsupported_width Misc.parse_input
                  (Fixture.boot Fixture.odd 4096) "/blk/ODD") _ _ _ _ E).
Defined.

(** For a register whose width has no [case], a [read] whose [mmap]
    succeeded returns EFAULT from the [default] branch with the page
    still mapped: the machine returned is the one right after [mmap]. *)
Theorem unsupported_width_leaves_page_mapped :
  forall m path reg addr width size offset,
    find_reg (private_data m) path = Done (Some reg) ->
    read_u64 (header (private_data m)) (reg + Layout.reg_addr) = Done addr ->
    read_u32 (header (private_data m)) (reg + Layout.reg_width)
      = Done width ->
    supported_width width = false ->
    let len := map_length (getpagesize m) (to_off_t addr) 4 in
    let off := page_base (getpagesize m) (to_off_t addr) in
    let b := os_mmap m (List.length (mmap_calls m)) len off in
    b <> MAP_FAILED ->
    soc_read path size offset m
      = Done ((- EFAULT, None), mapped m b len off) /\
    mappings (mapped m b len off)
      = {| m_base := b; m_len := len; m_off := off |} :: mappings m.
Proof.
  intros m path reg addr width size offset Hreg Haddr Hwidth Hbad
    len off b Hb.
  split; [|reflexivity].
  unfold soc_read, bind, get_private, lift.
  rewrite Hreg, Haddr, map_mem_eq. cbv zeta.
  fold len. fold off. fold b.
  destruct (Z.eqb_spec b MAP_FAILED) as [|_]; [contradiction|].
  change (negb (0 =? 0)) with false. cbv iota.
  rewrite Hwidth, Hbad. reflexivity.
Qed.

Lemma unsupported_width_leaves_page_mapped_witness :
  soc_read "/blk/ODD" 4096 0 (Fixture.boot Fixture.odd 4096)
    = Done ((- EFAULT, None),
            mapped (Fixture.boot Fixture.odd 4096)
                   0x7f0000000000 4096 0x20000000) /\
  mappings (mapped (Fixture.boot Fixture.odd 4096)
                   0x7f0000000000 4096 0x20000000)
    = [{| m_base := 0x7f0000000000; m_len := 4096;
          m_off := 0x20000000 |}].
Proof.
  refine (unsupported_width_leaves_page_mapped
            (Fixture.boot Fixture.odd 4096) "/blk/ODD" 84 0x20000000 12
            4096 0 _ _ _ _ _); vm_compute; try reflexivity; discriminate.
Defined.

(** ** What [map_mem] asks of [mmap] *)

(** With a power-of-two page size, [map_mem] calls [mmap] exactly once,
    whether or not the call succeeds: for one or two whole pages, at
    the file offset that is the target rounded down to a page
    boundary. *)
Theorem map_mem_asks_for_whole_pages :
  forall private map target width m k,
    getpagesize m = 2 ^ k ->
    0 <= k < 31 ->
    0 <= width <= 2 ^ k ->
    exists failed map' m',
      map_mem private map target width m = Done ((failed, map'), m') /\
      (failed = 0 \/ failed = 1) /\
      mmap_calls m'
        = mmap_calls m ++ [(mapped_size map', 2 ^ k * (target / 2 ^ k))] /\
      (mapped_size map' = 2 ^ k \/ mapped_size map' = 2 * 2 ^ k) /\
      2 ^ k * (target / 2 ^ k) <= target < 2 ^ k * (target / 2 ^ k) + 2 ^ k.
Proof.
  intros private map target width m k Hpage Hk Hw.
  assert (Hpos : 0 < 2 ^ k) by (apply Z.pow_pos_nonneg; lia).
  assert (H31 : 2 ^ k <= 2 ^ 30) by (apply Z.pow_le_mono_r; lia).
  pose proof (Z.mod_pos_bound target (2 ^ k) Hpos) as Ho.
  pose proof (Z.div_mod target (2 ^ k) ltac:(lia)) as Hdm.
  assert (Hbase : page_base (getpagesize m) target
                  = 2 ^ k * (target / 2 ^ k)).
  { rewrite Hpage, (page_base_pow2 k Hk). lia. }
  assert (Hlen : map_length (getpagesize m) target width = 2 ^ k \/
                 map_length (getpagesize m) target width = 2 * 2 ^ k).
  { rewrite Hpage, (map_length_pow2 k Hk) by lia.
    destruct (_ >? _); auto. }
  rewrite map_mem_eq. cbv zeta. rewrite Hbase.
  destruct (_ =? MAP_FAILED); do 3 eexists;
    (split; [reflexivity|]); cbn [mapped_size mmap_calls log_mmap mapped
                                  set_mappings];
    repeat split; auto; lia.
Qed.

Lemma map_mem_asks_for_whole_pages_witness :
  exists failed map' m',
    map_mem {| header := Fixture.demo; mem_fd := 3 |} auto_mem_map
      0x10000ffd 4 (Scene.no_devmem Fixture.demo 4096)
    = Done ((failed, map'), m') /\
    (failed = 0 \/ failed = 1) /\
    mmap_calls m'
      = mmap_calls (Scene.no_devmem Fixture.demo 4096)
          ++ [(mapped_size map', 2 ^ 12 * (0x10000ffd / 2 ^ 12))] /\
    (mapped_size map' = 2 ^ 12 \/ mapped_size map' = 2 * 2 ^ 12) /\
    2 ^ 12 * (0x10000ffd / 2 ^ 12) <= 0x10000ffd
      < 2 ^ 12 * (0x10000ffd / 2 ^ 12) + 2 ^ 12.
Proof.
  refine (map_mem_asks_for_whole_pages
            {| header := Fixture.demo; mem_fd := 3 |} auto_mem_map
            0x10000ffd 4 (Scene.no_devmem Fixture.demo 4096) 12 _ _ _);
    first [ lia | vm_compute; reflexivity ].
Defined.

(** ** What a successful access touches *)

Lemma poke_le_outside :
  forall n d pa v a,
    a < pa \/ pa + Z.of_nat n <= a -> poke_le d pa n v a = d a.
Proof.
  induction n as [|n IH]; intros d pa v a Ha; cbn [poke_le].
  - reflexivity.
  - rewrite IH by lia. unfold poke.
    destruct (Z.eqb_spec a pa); [lia|reflexivity].
Qed.

Section RegisterAccess.

Variable parse_input : string -> option Z.
Variables (m : machine) (path : string) (reg addr width k : Z).

Hypothesis Hreg : find_reg (private_data m) path = Done (Some reg).
Hypothesis Haddr :
  read_u64 (header (private_data m)) (reg + Layout.reg_addr) = Done addr.
Hypothesis Hwidth :
  read_u32 (header (private_data m)) (reg + Layout.reg_width) = Done width.
Hypothesis Hsup : supported_width width = true.
Hypothesis Hpage : getpagesize m = 2 ^ k.
Hypothesis Hk : 3 <= k < 31.

Let target := to_off_t addr.
Let o := target mod 2 ^ k.
Let len := if o + 4 >? 2 ^ k then 2 * 2 ^ k else 2 ^ k.

Hypothesis Hmapped :
  os_mmap m (List.length (mmap_calls m)) len (target - o) <> MAP_FAILED.
Hypothesis Hfit : width <= 32 \/ o + 8 <= 2 ^ k \/ 2 ^ k < o + 4.

Lemma access_arguments :
  map_length (getpagesize m) target 4 = len /\
  page_base (getpagesize m) target = target - o /\
  page_offset (getpagesize m) target = o /\
  o + width / 8 <= len.
Proof.
  clear Hmapped Hreg Haddr Hwidth.
  assert (Hk' : 0 <= k < 31) by lia.
  assert (H8 : 8 <= 2 ^ k).
  { change 8 with (2 ^ 3). apply Z.pow_le_mono_r; lia. }
  assert (Ho : 0 <= o < 2 ^ k) by (apply Z.mod_pos_bound; lia).
  destruct (supported_width_bytes width Hsup) as (_ & Hbytes & H32 & H64).
  rewrite Hpage. repeat split.
  - rewrite (map_length_pow2 k Hk') by lia. reflexivity.
  - apply (page_base_pow2 k Hk').
  - apply (page_offset_pow2 k Hk').
  - unfold len. destruct (Z.gtb_spec (o + 4) (2 ^ k)); lia.
Qed.

(** Where the register's bytes lie inside the window that
    [map_mem (..., 4)] maps (always for the widths 8, 16 and 32; for
    the width 64 unless the offset in the page is in (page - 8,
    page - 4]), the page size is a power of two of at least 8, [mmap]
    succeeds and the buffer has room for the text, [read] succeeds and
    its text shows the [width / 8] bytes of physical memory that start
    at the register's address, taken as a little-endian number;
    physical memory is left as it was. *)
Theorem read_reports_bytes_at_register_address :
  forall size offset,
    let value := peek_le (devmem m) target (Z.to_nat (width / 8)) in
    let text := sprintf_reg addr value in
    Z.of_nat (String.length text) + 1 <= size ->
    exists m',
      soc_read path size offset m
        = Done ((to_int (Z.of_nat (String.length text)), Some text), m') /\
      devmem m' = devmem m.
Proof.
  intros size offset value text Hsize.
  destruct access_arguments as (Hlen & Hoff & Hofs & Hwin).
  destruct (soc_read_through m path reg addr width Hreg Haddr Hwidth Hsup)
    with (size := size) (offset := offset) as (m' & Hread & _ & Hdev).
  - fold target. rewrite Hlen, Hoff. exact Hmapped.
  - fold target. rewrite Hlen, Hofs. exact Hwin.
  - fold target. rewrite Hoff, Hofs.
    replace (target - o + o) with target by lia. exact Hsize.
  - exists m'. split; [|exact Hdev].
    fold target in Hread. rewrite Hoff, Hofs in Hread.
    replace (target - o + o) with target in Hread by lia. exact Hread.
Qed.

(** Where the register's bytes lie inside the window that
    [map_mem (..., 4)] maps (always for the widths 8, 16 and 32; for
    the width 64 unless the offset in the page is in (page - 8,
    page - 4]), the page size is a power of two of at least 8, the text
    parses and [mmap] succeeds, [write] succeeds: it returns the [size]
    it was given, puts the low [width] bits of the value at the
    register's address, and changes no byte of physical memory outside
    the register. *)
Theorem write_changes_only_the_register :
  forall buf v size offset,
    parse_input buf = Some v ->
    exists m',
      soc_write parse_input path buf size offset m
        = Done (to_int size, m') /\
      peek_le (devmem m') target (Z.to_nat (width / 8)) = v mod 2 ^ width /\
      (forall a, a < target \/ target + width / 8 <= a ->
                 devmem m' a = devmem m a).
Proof.
  intros buf v size offset Hparse.
  destruct access_arguments as (Hlen & Hoff & Hofs & Hwin).
  destruct (supported_width_bytes width Hsup) as (Hpow & Hbytes & _).
  destruct (soc_write_through parse_input m path reg addr width
              Hreg Haddr Hwidth Hsup) with (buf := buf) (v := v)
              (size := size) (offset := offset)
    as (m' & Hwrite & _ & _ & _ & _ & Hdev).
  - fold target. rewrite Hlen, Hoff. exact Hmapped.
  - fold target. rewrite Hlen, Hofs. exact Hwin.
  - exact Hparse.
  - fold target in Hdev. rewrite Hoff, Hofs in Hdev.
    replace (target - o + o) with target in Hdev by lia.
    exists m'. split; [exact Hwrite|]. rewrite Hdev. split.
    + rewrite peek_poke, Hpow. reflexivity.
    + intros a Ha. apply poke_le_outside. lia.
Qed.

End RegisterAccess.

Lemma read_reports_bytes_at_register_address_witness :
  exists m',
    soc_read "/uart0/CTRL" 64 0
      (Fixture.holding Fixture.demo 4096 0x10000000 4 0x12345678)
      = Done ((25, Some ("0x10000000 -> 0x12345678" ++ newline)%string),
              m') /\
    devmem m'
      = devmem (Fixture.holding Fixture.demo 4096 0x10000000 4 0x12345678).
Proof.
  refine (read_reports_bytes_at_register_address
            (Fixture.holding Fixture.demo 4096 0x10000000 4 0x12345678)
            "/uart0/CTRL" 84 0x10000000
            32 12 _ _ _ _ _ _ _ _ 64 0 _);
    first [ lia | vm_compute; reflexivity | vm_compute; discriminate ].
Defined.

Lemma write_changes_only_the_register_witness :
  exists m',
    soc_write Misc.parse_input "/uart0/CTRL" "0x12345" 7 0
      (Fixture.boot Fixture.demo 4096) = Done (7, m') /\
    peek_le (devmem m') 0x10000000 4 = 0x12345 /\
    (forall a, a < 0x10000000 \/ 0x10000000 + 4 <= a ->
               devmem m' a = 0).
Proof.
  refine (write_changes_only_the_register Misc.parse_input
            (Fixture.boot Fixture.demo 4096) "/uart0/CTRL" 84 0x10000000
            32 12 _ _ _ _ _ _ _ _ "0x12345"%string 0x12345 7 0 _);
    first [ lia | vm_compute; reflexivity | vm_compute; discriminate ].
Defined.

Lemma write_then_read_witness :
  exists m1 m2,
    soc_write Misc.parse_input "/uart0/CTRL" "0x1ffffffff" 11 0
      (Fixture.boot Fixture.demo 4096) = Done (11, m1) /\
    soc_read "/uart0/CTRL" 64 0 m1
      = Done ((25, Some ("0x10000000 -> 0xffffffff" ++ newline)%string),
              m2).
Proof.
  refine (write_then_read Misc.parse_input
            (Fixture.boot Fixture.demo 4096) "/uart0/CTRL" 84 0x10000000
            32 "0x1ffffffff"%string 0x1ffffffff 11 0 64 0 12
            _ _ _ _ _ _ _ _ _ _ _);
    first [ lia | vm_compute; reflexivity | vm_compute; discriminate ].
Defined.

Lemma map_mem_window_witness :
  exists map' m',
    map_mem {| header := Fixture.straddle; mem_fd := 3 |} auto_mem_map
      0x10000ffa 8 (Fixture.boot Fixture.straddle 4096)
    = Done ((0, map'), m') /\
    offset_in_page map' = 0xffa /\
    (mapped_size map' = 8192 <-> offset_in_page map' + 8 > 4096) /\
    (mapped_size map' = 4096 <-> offset_in_page map' + 8 <= 4096) /\
    map_base map' <= virt_addr map' /\
    virt_addr map' + 8 <= map_base map' + mapped_size map'.
Proof.
  eexists. eexists.
  assert (E : map_mem {| header := Fixture.straddle; mem_fd := 3 |}
                auto_mem_map 0x10000ffa 8
                (Fixture.boot Fixture.straddle 4096)
              = Done ((0, _), _)) by (vm_compute; reflexivity).
  split; [exact E|].
  refine (map_mem_window 12 _ _ _ 0x10000ffa 8 _ _ _ _ _ E);
    first [ lia | vm_compute; reflexivity ].
Defined.

(** ** Which block a name selects *)

Lemma strncmp_defined h :
  forall s p t n,
    cstring h p = Done t -> exists r, strncmp s h p n = Done r.
Proof.
  induction s as [|c s IH]; intros p t n Ht;
    destruct (cstring_step h p t Ht) as (c2 & Hb & Hcase).
  - cbn [strncmp]. destruct (n <=? 0); [eauto|].
    rewrite Hb. cbn [rbind]. eauto.
  - cbn [strncmp]. destruct (n <=? 0); [eauto|].
    rewrite Hb. cbn [rbind].
    destruct (Ascii.eqb_spec c c2) as [<-|Hne]; [|eauto].
    destruct (Ascii.eqb c NUL) eqn:Hc; [eauto|].
    destruct Hcase as [[-> _]|[_ (t' & _ & Ht')]].
    + rewrite Ascii.eqb_refl in Hc. discriminate.
    + eapply IH. exact Ht'.
Qed.

Lemma find_top_loop_first h name :
  nul_free name = true ->
  forall count top tops names,
    tops_chain h count top = Done tops ->
    names_at h tops = Done names ->
    find_top_loop h name (strlen name) count top
      = Done (first_prefixed name tops names).
Proof.
  intros Hname.
  induction count as [|count IH]; intros top tops names Hc Hn.
  - cbn [tops_chain] in Hc. done_inv Hc. reflexivity.
  - cbn [tops_chain] in Hc. done_inv Hc.
    cbn [names_at] in Hn. done_inv Hn.
    cbn [find_top_loop first_prefixed].
    destruct (strncmp_defined h name _ _ (strlen name) E1) as (r & Hr).
    rewrite Hr. cbn [rbind].
    pose proof (strncmp_accepts_prefix h name _ _ Hname E1) as Hiff.
    destruct (Z.eqb_spec r 0) as [->|Hr0].
    + rewrite (proj1 Hiff Hr). reflexivity.
    + destruct (String.prefix name x1) eqn:Hp.
      * rewrite (proj2 Hiff eq_refl) in Hr. apply Done_inj in Hr.
        congruence.
      * rewrite E. cbn [rbind]. apply IH; assumption.
Qed.

(** Asked for a whole name, [find_top] returns the first block, in
    on-disk order, whose name starts with that name, and the null
    pointer when no block does: a longer name is taken as well as an
    equal one, and an earlier block wins over a later one. *)
Theorem find_top_first_prefix_match :
  forall private name n tops names,
    nul_free name = true ->
    block_count (header private) = Done n ->
    tops_chain (header private) (Z.to_nat n) Layout.hdr_tops = Done tops ->
    names_at (header private) tops = Done names ->
    find_top private name (strlen name)
      = Done (first_prefixed name tops names).
Proof.
  intros private name n tops names Hname Hn Hc Hnames.
  unfold find_top. unfold block_count in Hn. rewrite Hn. cbn [rbind].
  apply find_top_loop_first; assumption.
Qed.

Lemma find_top_first_prefix_match_witness :
  find_top {| header := Fixture.twins; mem_fd := 3 |} "uart1"
    (strlen "uart1")
  = Done (first_prefixed "uart1" [44; 160]
            ["uart10"%string; "uart1"%string]).
Proof.
  refine (find_top_first_prefix_match
            {| header := Fixture.twins; mem_fd := 3 |} "uart1" 2 [44; 160]
            ["uart10"%string; "uart1"%string] _ _ _ _);
    vm_compute; reflexivity.
Defined.

(** ** Which register a path selects *)

Lemma code_NUL c : code c = 0 -> c = NUL.
Proof. intros H. apply code_inj. rewrite H. reflexivity. Qed.

(** [strcmp] returns 0 exactly for the equal name. *)
Lemma strcmp_exact h :
  forall s p t,
    nul_free s = true ->
    cstring h p = Done t ->
    (strcmp s h p = Done 0 <-> s = t).
Proof.
  induction s as [|c s IH]; intros p t Hs Ht;
    destruct (cstring_step h p t Ht) as (c2 & Hb & Hcase).
  - cbn [strcmp]. rewrite Hb. cbn [rbind]. split.
    + intros H. apply Done_inj in H.
      destruct Hcase as [[_ ->]|[Hc2 _]]; [reflexivity|].
      exfalso. apply Hc2, code_NUL. lia.
    + intros <-. destruct Hcase as [[-> _]|[_ (t' & Ht' & _)]];
        [reflexivity|discriminate].
  - cbn [nul_free] in Hs. apply andb_true_iff in Hs. destruct Hs as [Hc Hs].
    apply negb_true_iff in Hc.
    cbn [strcmp]. rewrite Hb. cbn [rbind].
    destruct (Ascii.eqb_spec c c2) as [<-|Hne].
    + rewrite Hc.
      destruct Hcase as [[-> _]|[_ (t' & -> & Ht')]];
        [rewrite Ascii.eqb_refl in Hc; discriminate|].
      rewrite (IH (p + 1) t' Hs Ht'). split; congruence.
    + split.
      * intros H. apply Done_inj in H. exfalso. apply Hne, code_inj. lia.
      * intros <-. destruct Hcase as [[_ Ht']|[_ (t' & Ht' & _)]];
          [discriminate|]. congruence.
Qed.

Lemma find_reg_loop_match h rname top :
  forall count i r,
    find_reg_loop h rname top count i = Done (Some r) ->
    strcmp rname h (r + Layout.reg_name) = Done 0.
Proof.
  induction count as [|count IH]; intros i r H; cbn [find_reg_loop] in H.
  - apply Done_inj in H. discriminate.
  - cbv zeta in H.
    destruct (strcmp rname h _) as [c|] eqn:E; cbn [rbind] in H;
      [|discriminate].
    destruct (Z.eqb_spec c 0) as [->|Hc].
    + apply Done_inj in H. injection H as <-. exact E.
    + eapply IH. exact H.
Qed.

Lemma strchr_nonneg c : forall s k, strchr s c = Some k -> 0 <= k.
Proof.
  induction s as [|a s IH]; intros k H; cbn [strchr] in H.
  - destruct (Ascii.eqb c NUL); inversion H. lia.
  - destruct (Ascii.eqb a c); [inversion H; lia|].
    destruct (Ascii.eqb a NUL); [discriminate|].
    destruct (strchr s c) as [k'|]; [|discriminate].
    inversion H. specialize (IH k' eq_refl). lia.
Qed.

(** The text before the first [c], and the text after it. *)
Lemma strchr_advance c :
  c <> NUL ->
  forall s k r,
    strchr s c = Some k ->
    advance (Z.to_nat (k + 1)) s = Done r ->
    exists seg,
      s = (seg ++ String c r)%string /\
      has_char c seg = false /\
      Z.of_nat (String.length seg) = k.
Proof.
  intros Hc. induction s as [|a s IH]; intros k r Hk Hr; cbn [strchr] in Hk.
  - destruct (Ascii.eqb_spec c NUL); [contradiction|discriminate].
  - destruct (Ascii.eqb_spec a c) as [->|Hac].
    + inversion Hk; subst k.
      change (Z.to_nat (0 + 1)) with 1%nat in Hr. cbn [advance] in Hr.
      destruct (Ascii.eqb c NUL); [discriminate|].
      apply Done_inj in Hr. subst r.
      exists EmptyString. auto.
    + destruct (Ascii.eqb a NUL) eqn:Ha; [discriminate|].
      destruct (strchr s c) as [k'|] eqn:Hk'; [|discriminate].
      inversion Hk; subst k.
      pose proof (strchr_nonneg c s k' Hk') as Hpos.
      replace (Z.to_nat (Z.succ k' + 1)) with (S (Z.to_nat (k' + 1)))
        in Hr by lia.
      cbn [advance] in Hr. rewrite Ha in Hr.
      destruct (IH k' r eq_refl Hr) as (seg & -> & Hseg & Hlen).
      exists (String a seg). cbn [append has_char String.length].
      repeat split; [|lia].
      destruct (Ascii.eqb_spec a c); [contradiction|exact Hseg].
Qed.

Lemma nul_free_app s t :
  nul_free (s ++ t) = true -> nul_free t = true.
Proof.
  induction s as [|a s IH]; cbn [append nul_free]; [auto|].
  intros H. apply andb_true_iff in H. apply IH, H.
Qed.

(** A path resolves to a register only if everything after its second
    slash is that register's name: the block segment holds no slash,
    and later slashes count as characters of the register name. *)
Theorem find_reg_names_all_after_second_slash :
  forall private path r t,
    nul_free path = true ->
    find_reg private path = Done (Some r) ->
    cstring (header private) (r + Layout.reg_name) = Done t ->
    exists c0 seg,
      path = String c0 (seg ++ String "/"%char t) /\
      has_char "/"%char seg = false.
Proof.
  intros private path r t Hpath H Ht. unfold find_reg in H.
  destruct path as [|c0 name1]; [discriminate|].
  cbn [advance] in H.
  destruct (Ascii.eqb c0 NUL); [discriminate|]. cbn [rbind] in H.
  unfold index in H.
  destruct (strchr name1 "/"%char) as [k|] eqn:Hk; [|discriminate].
  destruct (find_top private name1 _) as [[top|]|]; cbn [rbind] in H;
    [| apply Done_inj in H; discriminate | discriminate].
  replace (k - 1 + 2) with (k + 1) in H by lia.
  destruct (advance (Z.to_nat (k + 1)) name1) as [rname|] eqn:Hadv;
    cbn [rbind] in H; [|discriminate].
  destruct (read_u32 _ _) as [reg_count|]; cbn [rbind] in H; [|discriminate].
  apply find_reg_loop_match in H.
  destruct (strchr_advance "/"%char ltac:(discriminate) name1 k rname
              Hk Hadv) as (seg & Hname1 & Hseg & _).
  assert (Hrn : nul_free rname = true).
  { cbn [nul_free] in Hpath. apply andb_true_iff in Hpath.
    destruct Hpath as [_ Hpath]. rewrite Hname1 in Hpath.
    apply nul_free_app in Hpath. cbn [nul_free] in Hpath.
    apply andb_true_iff in Hpath. apply Hpath. }
  apply (strcmp_exact _ _ _ _ Hrn Ht) in H. subst rname.
  exists c0, seg. split; [congruence|exact Hseg].
Qed.

Lemma find_reg_names_all_after_second_slash_witness :
  exists c0 seg,
    "/uart0/CTRL"%string = String c0 (seg ++ String "/"%char "CTRL") /\
    has_char "/"%char seg = false.
Proof.
  refine (find_reg_names_all_after_second_slash
            {| header := Fixture.demo; mem_fd := 3 |} "/uart0/CTRL" 84
            "CTRL" _ _ _); vm_compute; reflexivity.
Defined.

(** ** The block segment is compared one character short *)

Lemma strncmp_agree h :
  forall s t t' p n,
    n <= Z.of_nat (String.length s) ->
    strncmp (s ++ t) h p n = strncmp (s ++ t') h p n.
Proof.
  induction s as [|c s IH]; intros t t' p n Hn.
  - cbn [String.length Z.of_nat] in Hn. cbn [append].
    destruct t, t'; cbn [strncmp];
      destruct (Z.leb_spec n 0); try reflexivity; lia.
  - cbn [append strncmp]. destruct (n <=? 0); [reflexivity|].
    destruct (byte_at h p) as [c2|]; cbn [rbind]; [|reflexivity].
    destruct (Ascii.eqb c c2); [|reflexivity].
    destruct (Ascii.eqb c NUL); [reflexivity|].
    apply IH. cbn [String.length] in Hn. lia.
Qed.

Lemma find_top_loop_agree h name name' len :
  (forall p, strncmp name h p len = strncmp name' h p len) ->
  forall count top,
    find_top_loop h name len count top
    = find_top_loop h name' len count top.
Proof.
  intros Hcmp. induction count as [|count IH]; intros top;
    cbn [find_top_loop]; [reflexivity|].
  rewrite Hcmp. destruct (strncmp name' h _ len) as [r|]; cbn [rbind];
    [|reflexivity].
  destruct (r =? 0); [reflexivity|].
  destruct (read_u32 h _) as [next|]; cbn [rbind]; [apply IH|reflexivity].
Qed.

Lemma strchr_after_segment c a r :
  Ascii.eqb a c = false -> Ascii.eqb a NUL = false ->
  forall seg,
    nul_free seg = true -> has_char c seg = false ->
    strchr (seg ++ String a (String c r)) c
      = Some (Z.of_nat (String.length seg) + 1).
Proof.
  intros Hac Ha. induction seg as [|b seg IH]; intros Hn Hs.
  - cbn [append strchr String.length Z.of_nat]. rewrite Hac, Ha.
    rewrite Ascii.eqb_refl. reflexivity.
  - cbn [nul_free] in Hn. apply andb_true_iff in Hn. destruct Hn as [Hb Hn].
    apply negb_true_iff in Hb.
    cbn [has_char] in Hs. apply orb_false_iff in Hs. destruct Hs as [Hbc Hs].
    cbn [append strchr]. rewrite Hbc, Hb, (IH Hn Hs).
    cbn [option_map String.length]. f_equal. lia.
Qed.

Lemma advance_after_segment a c r :
  Ascii.eqb a NUL = false -> Ascii.eqb c NUL = false ->
  forall seg,
    nul_free seg = true ->
    advance (S (S (String.length seg))) (seg ++ String a (String c r))
      = Done r.
Proof.
  intros Ha Hc. induction seg as [|b seg IH]; intros Hn.
  - cbn [append advance String.length]. rewrite Ha, Hc. reflexivity.
  - cbn [nul_free] in Hn. apply andb_true_iff in Hn. destruct Hn as [Hb Hn].
    apply negb_true_iff in Hb.
    cbn [append String.length]. cbn [advance]. rewrite Hb.
    apply (IH Hn).
Qed.

Lemma find_reg_shape private seg a r :
  nul_free seg = true -> has_char "/"%char seg = false ->
  Ascii.eqb a "/"%char = false -> Ascii.eqb a NUL = false ->
  find_reg private (String "/"%char (seg ++ String a (String "/"%char r)))
  = let? top := find_top private (seg ++ String a (String "/"%char r))
                  (wrap64 (Z.of_nat (String.length seg))) in
    match top with
    | None => Done None
    | Some top =>
        let? reg_count :=
          read_u32 (header private) (top + Layout.top_reg_count) in
        find_reg_loop (header private) r top (Z.to_nat reg_count) 0
    end.
Proof.
  intros Hn Hs Ha Ha0. unfold find_reg, index.
  change (advance 1 (String "/"%char ?s)) with (Done s). cbn [rbind].
  rewrite (strchr_after_segment "/"%char a r Ha Ha0 seg Hn Hs). cbv zeta.
  replace (Z.of_nat (String.length seg) + 1 - 1 - 0)
    with (Z.of_nat (String.length seg)) by lia.
  destruct (find_top private _ _) as [[top|]|]; cbn [rbind];
    try reflexivity.
  replace (Z.to_nat (Z.of_nat (String.length seg) + 1 - 1 + 2))
    with (S (S (String.length seg))) by lia.
  rewrite (advance_after_segment a "/"%char r Ha0 eq_refl seg Hn).
  reflexivity.
Qed.

(** The last character of the block segment plays no part in the
    lookup: two paths that differ only there resolve alike. *)
Theorem find_reg_ignores_last_block_character :
  forall private seg a a' r,
    nul_free seg = true -> has_char "/"%char seg = false ->
    Ascii.eqb a "/"%char = false -> Ascii.eqb a NUL = false ->
    Ascii.eqb a' "/"%char = false -> Ascii.eqb a' NUL = false ->
    find_reg private
      (String "/"%char (seg ++ String a (String "/"%char r)))
    = find_reg private
        (String "/"%char (seg ++ String a' (String "/"%char r))).
Proof.
  intros private seg a a' r Hn Hs Ha Ha0 Ha' Ha0'.
  rewrite !find_reg_shape by assumption.
  assert (Hlen : wrap64 (Z.of_nat (String.length seg))
                 <= Z.of_nat (String.length seg)).
  { unfold wrap64. apply Z.mod_le; lia. }
  unfold find_top.
  destruct (read_u32 (header private) Layout.hdr_top_count) as [n|];
    cbn [rbind]; [|reflexivity].
  rewrite (find_top_loop_agree (header private)
             (seg ++ String a (String "/"%char r))
             (seg ++ String a' (String "/"%char r)));
    [reflexivity|].
  intros p. apply strncmp_agree. exact Hlen.
Qed.

Lemma find_reg_ignores_last_block_character_witness :
  find_reg {| header := Fixture.demo; mem_fd := 3 |} "/uart0/CTRL"
  = find_reg {| header := Fixture.demo; mem_fd := 3 |} "/uartZ/CTRL".
Proof.
  exact (find_reg_ignores_last_block_character
           {| header := Fixture.demo; mem_fd := 3 |} "uart"
           "0"%char "Z"%char "CTRL"
           eq_refl eq_refl eq_refl eq_refl eq_refl eq_refl).
Defined.

(** ** Directories *)

Lemma readdir_regs_lists h top :
  forall count i buf names,
    reg_names h top count i = Done names ->
    readdir_regs h top count i buf = Done (buf ++ names) /\
    List.length names = count.
Proof.
  induction count as [|count IH]; intros i buf names Hn.
  - cbn [reg_names] in Hn. done_inv Hn. cbn [readdir_regs].
    rewrite app_nil_r. auto.
  - cbn [reg_names] in Hn. done_inv Hn.
    cbn [readdir_regs]. cbv zeta. rewrite E. cbn [rbind].
    destruct (IH (i + 1) (filler buf x) x0 E0) as [Hr Hl].
    rewrite Hr. unfold filler. rewrite <- app_assoc. simpl. auto.
Qed.

Lemma not_the_root c0 c name :
  Ascii.eqb c NUL = false ->
  (strcmp_str (String c0 (String c name)) slash =? 0) = false.
Proof.
  intros Hc. unfold slash. cbn [strcmp_str].
  destruct (Ascii.eqb_spec c0 "/"%char) as [->|Hne].
  - cbn [Ascii.eqb Bool.eqb NUL]. apply Z.eqb_neq. intros H.
    apply code_NUL in H. subst c. discriminate.
  - apply Z.eqb_neq. intros H. apply Hne, code_inj. lia.
Qed.

(** Listing a block gives ".", "..", then the name of each of its
    registers in on-disk order, [reg_count + 2] entries added to the
    buffer; the machine is left as it was. *)
Theorem block_listing :
  forall m c0 c name buf offset top n names,
    Ascii.eqb c0 NUL = false ->
    Ascii.eqb c NUL = false ->
    strchr (String c name) "/"%char = None ->
    find_top (private_data m) (String c name) (strlen (String c name))
      = Done (Some top) ->
    read_u32 (header (private_data m)) (top + Layout.top_reg_count)
      = Done n ->
    reg_names (header (private_data m)) top (Z.to_nat n) 0 = Done names ->
    let listing := "."%string :: ".."%string :: names in
    soc_readdir (String c0 (String c name)) buf offset m
      = Done ((0, buf ++ listing), m) /\
    Z.of_nat (List.length listing) = n + 2.
Proof.
  intros m c0 c name buf offset top n names Hc0 Hc Hseg Htop Hn Hnames
    listing.
  destruct (readdir_regs_lists _ top _ 0
              (filler (filler buf ".") "..") names Hnames) as [Hr Hl].
  split.
  - unfold soc_readdir, bind, get_private, lift.
    rewrite (not_the_root c0 c name Hc). cbn [advance]. rewrite Hc0.
    rewrite Hseg, Htop, Hn, Hr. unfold filler, listing, ret.
    rewrite <- !app_assoc. reflexivity.
  - unfold listing. cbn [List.length]. rewrite Hl.
    pose proof (read_le_range _ _ _ _ Hn). lia.
Qed.

Lemma block_listing_witness :
  soc_readdir "/uart0" [] 0 (Fixture.boot Scene.board 4096)
    = Done ((0, [] ++ ["."%string; ".."%string; "CTRL"%string;
                       "STAT"%string]),
            Fixture.boot Scene.board 4096) /\
  Z.of_nat 4 = 2 + 2.
Proof.
  refine (block_listing (Fixture.boot Scene.board 4096) "/"%char "u"%char
            "art0" [] 0 44 2 ["CTRL"%string; "STAT"%string] _ _ _ _ _ _);
    vm_compute; reflexivity.
Defined.

Lemma rest_after_slash_not_root c0 rest k :
  strchr rest "/"%char = Some k ->
  (strcmp_str (String c0 rest) slash =? 0) = false.
Proof.
  intros Hk. destruct rest as [|c name]; [discriminate|].
  apply not_the_root. cbn [strchr] in Hk.
  destruct (Ascii.eqb_spec c NUL) as [->|]; [discriminate|reflexivity].
Qed.

(** A path with a slash after its first character is a regular file of
    size 256 for [getattr], whether or not it resolves to a register,
    and is ENOENT for [readdir], which leaves the buffer alone. *)
Theorem path_with_inner_slash_is_a_file :
  forall m c0 rest k buf offset,
    Ascii.eqb c0 NUL = false ->
    strchr rest "/"%char = Some k ->
    soc_getattr (String c0 rest) m = Done ((0, file_attr), m) /\
    soc_readdir (String c0 rest) buf offset m = Done ((- ENOENT, buf), m).
Proof.
  intros m c0 rest k buf offset Hc0 Hk.
  pose proof (rest_after_slash_not_root c0 rest k Hk) as Hroot.
  split.
  - unfold soc_getattr, bind, lift. cbv zeta. rewrite Hroot.
    cbn [advance]. rewrite Hc0, Hk. reflexivity.
  - unfold soc_readdir, bind, get_private, lift. rewrite Hroot.
    cbn [advance]. rewrite Hc0, Hk. reflexivity.
Qed.

Lemma path_with_inner_slash_is_a_file_witness :
  soc_getattr "/nosuch/thing" (Fixture.boot Fixture.demo 4096)
    = Done ((0, file_attr), Fixture.boot Fixture.demo 4096) /\
  soc_readdir "/nosuch/thing" ["x"%string] 0
    (Fixture.boot Fixture.demo 4096)
    = Done ((- ENOENT, ["x"%string]), Fixture.boot Fixture.demo 4096).
Proof.
  exact (path_with_inner_slash_is_a_file (Fixture.boot Fixture.demo 4096)
           "/"%char "nosuch/thing" 6 ["x"%string] 0 eq_refl eq_refl).
Defined.

(** A one-segment name that selects no block is still a directory for
    [getattr], which never looks at the descriptor, while [readdir]
    returns ENOENT for it and leaves the buffer alone. *)
Theorem absent_block_is_still_a_directory :
  forall m c0 c name buf offset,
    Ascii.eqb c0 NUL = false ->
    Ascii.eqb c NUL = false ->
    strchr (String c name) "/"%char = None ->
    find_top (private_data m) (String c name) (strlen (String c name))
      = Done None ->
    soc_getattr (String c0 (String c name)) m = Done ((0, dir_attr), m) /\
    soc_readdir (String c0 (String c name)) buf offset m
      = Done ((- ENOENT, buf), m).
Proof.
  intros m c0 c name buf offset Hc0 Hc Hseg Htop.
  pose proof (not_the_root c0 c name Hc) as Hroot.
  split.
  - unfold soc_getattr, bind, lift. cbv zeta. rewrite Hroot.
    cbn [advance]. rewrite Hc0, Hseg. reflexivity.
  - unfold soc_readdir, bind, get_private, lift. rewrite Hroot.
    cbn [advance]. rewrite Hc0, Hseg, Htop. reflexivity.
Qed.

Lemma absent_block_is_still_a_directory_witness :
  soc_getattr "/i2c" (Fixture.boot Fixture.demo 4096)
    = Done ((0, dir_attr), Fixture.boot Fixture.demo 4096) /\
  soc_readdir "/i2c" [] 0 (Fixture.boot Fixture.demo 4096)
    = Done ((- ENOENT, []), Fixture.boot Fixture.demo 4096).
Proof.
  refine (absent_block_is_still_a_directory
            (Fixture.boot Fixture.demo 4096) "/"%char "i"%char "2c" [] 0
            eq_refl eq_refl eq_refl _).
  vm_compute. reflexivity.
Defined.

(** ** Start-up *)

(** A descriptor whose magic is not 0x57a32bcd, or whose version is not
    1, ends start-up with exit status 1; the magic is tested first, so
    with a wrong magic the version word is not read. *)
Theorem wrong_magic_or_version_exits :
  forall file fd,
    (forall magic,
        read_u32 file Layout.hdr_magic = Done magic ->
        magic <> SOC_MAGIC ->
        main file fd = Done (Exit 1)) /\
    (forall version,
        read_u32 file Layout.hdr_magic = Done SOC_MAGIC ->
        read_u32 file Layout.hdr_version = Done version ->
        version <> 1 ->
        main file fd = Done (Exit 1)).
Proof.
  intros file fd. split.
  - intros magic Hm Hne. rewrite main_unfold, Hm.
    destruct (Z.eqb_spec magic SOC_MAGIC); [contradiction|reflexivity].
  - intros version Hm Hv Hne. rewrite main_unfold, Hm, Hv.
    rewrite Z.eqb_refl. cbn [negb].
    destruct (Z.eqb_spec version 1); [contradiction|reflexivity].
Qed.

Lemma wrong_magic_or_version_exits_witness :
  main (Fixture.le_bytes 4 0x12345678) 3 = Done (Exit 1).
Proof.
  refine (proj1 (wrong_magic_or_version_exits
                   (Fixture.le_bytes 4 0x12345678) 3) 0x12345678 _ _);
    [vm_compute; reflexivity | discriminate].
Defined.

(** ** How long the text of a read is *)

Lemma length_append s t :
  String.length (s ++ t) = (String.length s + String.length t)%nat.
Proof. induction s as [|c s IH]; cbn; [reflexivity|]. rewrite IH. lia. Qed.

Lemma of_pos_length :
  forall (p : positive) (rest : string) (n : nat),
    Z.pos p < 16 ^ Z.of_nat n ->
    (String.length (HexString.Raw.of_pos p rest)
     <= n + String.length rest)%nat.
Proof.
  fix IH 1. intros p rest n Hp.
  destruct n as [|n]; [cbn in Hp; lia|].
  rewrite Nat2Z.inj_succ, Z.pow_succ_r in Hp by lia.
  do 4 try destruct p as [p|p|]; try (cbn; lia);
    cbn [HexString.Raw.of_pos];
    (etransitivity; [apply (IH _ _ n); lia | cbn; lia]).
Qed.

Lemma llx_length n :
  0 <= n < 2 ^ 64 -> (1 <= String.length (llx n) <= 16)%nat.
Proof.
  intros Hn. unfold llx. destruct (Z.to_N n) as [|p] eqn:E; [cbn; lia|].
  split.
  - pose proof (of_pos_nonempty p EmptyString).
    destruct (HexString.Raw.of_pos p EmptyString); [congruence|cbn; lia].
  - pose proof (of_pos_length p EmptyString 16) as H.
    cbn [String.length] in H. rewrite Nat.add_0_r in H. apply H.
    change (16 ^ Z.of_nat 16) with (2 ^ 64).
    assert (Hp : Z.of_N (Z.to_N n) = n) by (apply Z2N.id; lia).
    rewrite E in Hp. cbn [Z.of_N] in Hp. lia.
Qed.

Lemma load_range : forall n va m v,
  load n va m = Done v -> 0 <= v < 256 ^ Z.of_nat n.
Proof.
  induction n as [|n IH]; intros va m v H; cbn [load] in H.
  - apply Done_inj in H. subst v. cbn. lia.
  - destruct (translate m va) as [pa|]; [|discriminate].
    done_inv H. apply IH in E.
    pose proof (Z.mod_pos_bound (devmem m pa) 256 ltac:(lia)).
    rewrite Nat2Z.inj_succ, Z.pow_succ_r by lia. lia.
Qed.

(** A successful [read] returns the length of its text, which lies
    between 11 and 41 bytes: never the 256 that [getattr] gives as the
    size of every register file. *)
Theorem read_length_is_not_the_reported_size :
  forall m path size offset res text m',
    soc_read path size offset m = Done ((res, Some text), m') ->
    res = Z.of_nat (String.length text) /\
    11 <= res <= 41 /\
    res <> st_size file_attr.
Proof.
  intros m path size offset res text m' H.
  unfold soc_read, bind, get_private, lift in H.
  destruct (find_reg (private_data m) path) as [[reg|]|]; try discriminate.
  destruct (read_u64 _ _) as [addr|] eqn:Haddr; [|discriminate].
  destruct (map_mem _ _ _ _ m) as [[[failed map] m1]|]; [|discriminate].
  destruct (negb (failed =? 0)); [discriminate|].
  destruct (read_u32 _ _) as [width|]; [|discriminate].
  destruct (supported_width width) eqn:Hsup; [|discriminate].
  unfold volatile_load in H.
  destruct (load _ _ m1) as [value|] eqn:Hload; [|discriminate].
  cbn [rbind] in H.
  destruct (unmap_mem map m1) as [[[] m3]|]; [|discriminate].
  destruct (Z.leb_spec (Z.of_nat (String.length (sprintf_reg addr value)) + 1)
              size) as [Hsize|]; [|discriminate].
  apply Done_inj, pair_equal_spec in H. destruct H as [H _].
  apply pair_equal_spec in H. destruct H as [Hres Htext].
  apply read_le_range in Haddr. apply load_range in Hload.
  destruct (supported_width_bytes width Hsup) as (Hpow & _).
  rewrite Hpow in Hload.
  assert (H64 : 2 ^ width <= 2 ^ 64).
  { unfold supported_width in Hsup.
    repeat (apply orb_true_iff in Hsup; destruct Hsup as [Hsup|Hsup]);
      apply Z.eqb_eq in Hsup; subst width; vm_compute; discriminate. }
  assert (Ha : 0 <= addr < 2 ^ 64)
    by (change (2 ^ 64) with (256 ^ 8); exact Haddr).
  pose proof (llx_length addr Ha) as La.
  pose proof (llx_length value ltac:(lia)) as Lv.
  assert (Hlen : (String.length (sprintf_reg addr value)
                  = 9 + String.length (llx addr)
                      + String.length (llx value))%nat).
  { unfold sprintf_reg. rewrite !length_append. cbn. lia. }
  assert (Hto : to_int (Z.of_nat (String.length (sprintf_reg addr value)))
                = Z.of_nat (String.length (sprintf_reg addr value))).
  { unfold to_int, wrap32. rewrite Z.mod_small by lia.
    destruct (Z.ltb_spec (Z.of_nat (String.length (sprintf_reg addr value)))
                (2 ^ 31)); lia. }
  injection Htext as <-. rewrite Hto in Hres. subst res.
  cbn [st_size file_attr]. lia.
Qed.

Lemma read_length_is_not_the_reported_size_witness :
  exists m',
    soc_read "/uart0/CTRL" 4096 0 (Fixture.boot Fixture.demo 4096)
      = Done ((18, Some ("0x10000000 -> 0x0" ++ newline)%string), m') /\
    18 = Z.of_nat (String.length ("0x10000000 -> 0x0" ++ newline)) /\
    11 <= 18 <= 41 /\ 18 <> st_size file_attr.
Proof.
  eexists.
  assert (E : soc_read "/uart0/CTRL" 4096 0
                (Fixture.boot Fixture.demo 4096)
              = Done ((18, Some ("0x10000000 -> 0x0" ++ newline)%string),
                      _)) by (vm_compute; reflexivity).
  split; [exact E|].
  exact (read_length_is_not_the_reported_size _ _ _ _ _ _ _ E).
Defined.

(** ** The whole lookup *)

Lemma strcmp_defined h :
  forall s p t, cstring h p = Done t -> exists r, strcmp s h p = Done r.
Proof.
  induction s as [|c s IH]; intros p t Ht;
    destruct (cstring_step h p t Ht) as (c2 & Hb & Hcase);
    cbn [strcmp]; rewrite Hb; cbn [rbind]; [eauto|].
  destruct (Ascii.eqb_spec c c2) as [<-|Hne]; [|eauto].
  destruct (Ascii.eqb c NUL) eqn:Hc; [eauto|].
  destruct Hcase as [[-> _]|[_ (t' & _ & Ht')]].
  - rewrite Ascii.eqb_refl in Hc. discriminate.
  - eapply IH. exact Ht'.
Qed.

Lemma find_reg_loop_first h rname top :
  nul_free rname = true ->
  forall count i names,
    reg_names h top count i = Done names ->
    find_reg_loop h rname top count i
      = Done (option_map (reg_at top) (first_named rname names i)).
Proof.
  intros Hr. induction count as [|count IH]; intros i names Hn.
  - cbn [reg_names] in Hn. done_inv Hn. reflexivity.
  - cbn [reg_names] in Hn. done_inv Hn.
    cbn [find_reg_loop first_named]. cbv zeta.
    destruct (strcmp_defined h rname _ _ E) as (c & Hc).
    rewrite Hc. cbn [rbind].
    pose proof (strcmp_exact h rname _ _ Hr E) as Hiff.
    destruct (Z.eqb_spec c 0) as [->|Hc0].
    + rewrite (proj2 (String.eqb_eq _ _) (proj1 Hiff Hc)). reflexivity.
    + destruct (String.eqb_spec rname x) as [Heq|_].
      * rewrite (proj2 Hiff Heq) in Hc. apply Done_inj in Hc. congruence.
      * apply IH. exact E0.
Qed.

Lemma append_empty s : (s ++ EmptyString)%string = s.
Proof.
  induction s as [|c s IH]; cbn; [reflexivity|]. rewrite IH. reflexivity.
Qed.

Lemma strlen_length s :
  nul_free s = true -> strlen s = Z.of_nat (String.length s).
Proof.
  induction s as [|c s IH]; intros H; [reflexivity|].
  cbn [nul_free] in H. apply andb_true_iff in H. destruct H as [Hc Hs].
  apply negb_true_iff in Hc. cbn [strlen String.length]. rewrite Hc, IH by
    assumption. lia.
Qed.

(** How a two-segment path resolves.  The block is the first one, in
    on-disk order, whose name starts with the block segment less its
    last character; inside that block the register is the first one
    whose name equals the register segment; no other block is tried. *)
Theorem find_reg_resolution :
  forall private seg a r n tops names,
    nul_free seg = true -> has_char "/"%char seg = false ->
    Ascii.eqb a "/"%char = false -> Ascii.eqb a NUL = false ->
    nul_free r = true ->
    Z.of_nat (String.length seg) < 2 ^ 64 ->
    block_count (header private) = Done n ->
    tops_chain (header private) (Z.to_nat n) Layout.hdr_tops = Done tops ->
    names_at (header private) tops = Done names ->
    let path := String "/"%char (seg ++ String a (String "/"%char r)) in
    (first_prefixed seg tops names = None ->
     find_reg private path = Done None) /\
    (forall top count rnames,
        first_prefixed seg tops names = Some top ->
        read_u32 (header private) (top + Layout.top_reg_count)
          = Done count ->
        reg_names (header private) top (Z.to_nat count) 0 = Done rnames ->
        find_reg private path
          = Done (option_map (reg_at top) (first_named r rnames 0))).
Proof.
  intros private seg a r n tops names Hn Hs Ha Ha0 Hr Hlen Hcount Hchain
    Hnames path.
  assert (Htop : find_top private (seg ++ String a (String "/"%char r))
                   (wrap64 (Z.of_nat (String.length seg)))
                 = Done (first_prefixed seg tops names)).
  { unfold find_top. unfold block_count in Hcount. rewrite Hcount.
    cbn [rbind]. unfold wrap64. rewrite Z.mod_small by lia.
    rewrite <- (find_top_loop_first (header private) seg Hn _ _ _ _
                  Hchain Hnames).
    rewrite (strlen_length seg Hn).
    rewrite <- (append_empty seg) at 3.
    apply find_top_loop_agree. intros p. apply strncmp_agree. lia. }
  unfold path. rewrite (find_reg_shape private seg a r Hn Hs Ha Ha0), Htop.
  cbn [rbind]. split.
  - intros ->. reflexivity.
  - intros top count rnames -> Hc Hrn. rewrite Hc. cbn [rbind].
    apply find_reg_loop_first; assumption.
Qed.

Lemma find_reg_resolution_witness :
  find_reg {| header := Fixture.twins; mem_fd := 3 |} "/uart1/STAT"
  = Done (option_map (reg_at 44)
            (first_named "STAT" ["STAT"%string] 0)).
Proof.
  refine (proj2 (find_reg_resolution
                   {| header := Fixture.twins; mem_fd := 3 |}
                   "uart" "1"%char "STAT" 2 [44; 160]
                   ["uart10"%string; "uart1"%string] _ _ _ _ _ _ _ _ _)
            44 1 ["STAT"%string] _ _ _);
    first [ vm_compute; reflexivity | lia ].
Defined.

(** ** Registers do not disturb one another *)

Lemma peek_le_agree d d' :
  forall n pa,
    (forall a, pa <= a < pa + Z.of_nat n -> d a = d' a) ->
    peek_le d pa n = peek_le d' pa n.
Proof.
  induction n as [|n IH]; intros pa H; cbn [peek_le]; [reflexivity|].
  rewrite (H pa) by lia. rewrite (IH (pa + 1)); [reflexivity|].
  intros a Ha. apply H. lia.
Qed.

(** Where the bytes of two registers do not overlap and each access
    fits the window that [map_mem (..., 4)] maps for it (always for the
    widths 8, 16 and 32; for the width 64 unless the offset in the page
    is in (page - 8, page - 4]), the page size is a power of two of at
    least 8 and both [mmap] calls succeed, writing one register and
    then reading the other gives the text built from physical memory as
    it was before the write. *)
Theorem write_leaves_other_registers :
  forall parse_input m k buf v size offset size' offset'
         pathA regA addrA widthA pathB regB addrB widthB,
    find_reg (private_data m) pathA = Done (Some regA) ->
    read_u64 (header (private_data m)) (regA + Layout.reg_addr)
      = Done addrA ->
    read_u32 (header (private_data m)) (regA + Layout.reg_width)
      = Done widthA ->
    supported_width widthA = true ->
    find_reg (private_data m) pathB = Done (Some regB) ->
    read_u64 (header (private_data m)) (regB + Layout.reg_addr)
      = Done addrB ->
    read_u32 (header (private_data m)) (regB + Layout.reg_width)
      = Done widthB ->
    supported_width widthB = true ->
    parse_input buf = Some v ->
    getpagesize m = 2 ^ k ->
    3 <= k < 31 ->
    let tA := to_off_t addrA in
    let oA := tA mod 2 ^ k in
    let lenA := if oA + 4 >? 2 ^ k then 2 * 2 ^ k else 2 ^ k in
    let tB := to_off_t addrB in
    let oB := tB mod 2 ^ k in
    let lenB := if oB + 4 >? 2 ^ k then 2 * 2 ^ k else 2 ^ k in
    os_mmap m (List.length (mmap_calls m)) lenA (tA - oA) <> MAP_FAILED ->
    os_mmap m (S (List.length (mmap_calls m))) lenB (tB - oB)
      <> MAP_FAILED ->
    (widthA <= 32 \/ oA + 8 <= 2 ^ k \/ 2 ^ k < oA + 4) ->
    (widthB <= 32 \/ oB + 8 <= 2 ^ k \/ 2 ^ k < oB + 4) ->
    (tA + widthA / 8 <= tB \/ tB + widthB / 8 <= tA) ->
    let text :=
      sprintf_reg addrB (peek_le (devmem m) tB (Z.to_nat (widthB / 8))) in
    Z.of_nat (String.length text) + 1 <= size' ->
    exists m1 m2,
      soc_write parse_input pathA buf size offset m
        = Done (to_int size, m1) /\
      soc_read pathB size' offset' m1
        = Done ((to_int (Z.of_nat (String.length text)), Some text), m2).
Proof.
  intros parse_input m k buf v size offset size' offset'
    pathA regA addrA widthA pathB regB addrB widthB
    HregA HaddrA HwidthA HsupA HregB HaddrB HwidthB HsupB Hparse Hpage Hk
    tA oA lenA tB oB lenB HmapA HmapB HfitA HfitB Hapart text Hsize.
  destruct (access_arguments m addrA widthA k HsupA Hpage Hk HfitA)
    as (HlenA & HoffA & HofsA & HwinA).
  destruct (access_arguments m addrB widthB k HsupB Hpage Hk HfitB)
    as (HlenB & HoffB & HofsB & HwinB).
  fold tA in HlenA, HoffA, HofsA. fold oA in HoffA, HofsA, HwinA.
  fold lenA in HlenA, HwinA.
  fold tB in HlenB, HoffB, HofsB. fold oB in HoffB, HofsB, HwinB.
  fold lenB in HlenB, HwinB.
  destruct (supported_width_bytes widthA HsupA) as (_ & HbytesA & _).
  destruct (supported_width_bytes widthB HsupB) as (_ & HbytesB & _).
  destruct (soc_write_through parse_input m pathA regA addrA widthA
              HregA HaddrA HwidthA HsupA) with (buf := buf) (v := v)
              (size := size) (offset := offset)
    as (m1 & Hwrite & Hp1 & Hg1 & Ho1 & Hc1 & Hd1).
  { fold tA. rewrite HlenA, HoffA. exact HmapA. }
  { fold tA. rewrite HlenA, HofsA. exact HwinA. }
  { exact Hparse. }
  fold tA in Hc1, Hd1. rewrite HlenA, HoffA in Hc1.
  rewrite HoffA, HofsA in Hd1.
  replace (tA - oA + oA) with tA in Hd1 by lia.
  assert (Hsame : peek_le (devmem m1) tB (Z.to_nat (widthB / 8))
                  = peek_le (devmem m) tB (Z.to_nat (widthB / 8))).
  { apply peek_le_agree. intros a Ha. rewrite Hd1.
    apply poke_le_outside. lia. }
  exists m1.
  destruct (soc_read_through m1 pathB regB addrB widthB) with
    (size := size') (offset := offset') as (m2 & Hread & _).
  - rewrite Hp1. exact HregB.
  - rewrite Hp1. exact HaddrB.
  - rewrite Hp1. exact HwidthB.
  - exact HsupB.
  - fold tB. rewrite Hg1, Ho1, Hc1, HlenB, HoffB, length_app.
    cbn [List.length]. rewrite Nat.add_1_r. exact HmapB.
  - fold tB. rewrite Hg1, HlenB, HofsB. exact HwinB.
  - fold tB. rewrite Hg1, HoffB, HofsB.
    replace (tB - oB + oB) with tB by lia. rewrite Hsame. exact Hsize.
  - exists m2. split; [exact Hwrite|].
    fold tB in Hread. rewrite Hg1, HoffB, HofsB in Hread.
    replace (tB - oB + oB) with tB in Hread by lia.
    rewrite Hsame in Hread. exact Hread.
Qed.

Lemma write_leaves_other_registers_witness :
  exists m1 m2,
    soc_write Misc.parse_input "/uart0/CTRL" "0xffffffff" 10 0
      (Fixture.holding Scene.board 4096 0x10000004 2 0xbeef)
      = Done (10, m1) /\
    soc_read "/uart0/STAT" 64 0 m1
      = Done ((21, Some ("0x10000004 -> 0xbeef" ++ newline)%string), m2).
Proof.
  refine (write_leaves_other_registers Misc.parse_input
            (Fixture.holding Scene.board 4096 0x10000004 2 0xbeef)
            12 "0xffffffff"%string
            0xffffffff 10 0 64 0
            "/uart0/CTRL" 84 0x10000000 32
            "/uart0/STAT" 160 0x10000004 16
            _ _ _ _ _ _ _ _ _ _ _ _ _ _ _ _ _);
    first [ lia | vm_compute; reflexivity | vm_compute; discriminate
          | left; vm_compute; discriminate ].
Defined.
